(** * Activity planner: the request-building front end and the optimisation
    engine it talks to.

    Part I embeds [front/src/App.jsx]: the zone and transport tables,
    [calculateTravelTime], the activity-list handlers and the matrix and
    request construction of [handleCalculate].  JavaScript numbers are IEEE-754
    doubles and are modelled by Rocq's primitive binary64 floats; objects used
    as dictionaries are finite maps keyed by strings; a property access on
    [undefined] (a [TypeError]) is the [None] of the option monad.

    Part II models the optimisation service behind [POST /optimize], whose
    code is not part of the sources at hand, from its written design. *)

From Stdlib Require Import ZArith QArith Qminmax Lqa Floats.
From stdpp Require Import base option list strings gmap.

Local Open Scope string_scope.

(* ===================================================================== *)
(** * Part I.  The front end ([App.jsx])                                  *)
(* ===================================================================== *)

Module Front.

(** ** JavaScript primitives used by the file *)

(** [Math.sqrt] is the correctly rounded IEEE square root. *)
Definition Math_sqrt (a : float) : float := PrimFloat.sqrt a.

(** [Math.min] on two arguments: [NaN] if either is [NaN]; [-0] counts as
    smaller than [+0]. *)
Definition is_neg_zero (a : float) : bool :=
  match PrimFloat.classify a with
  | FloatClass.NZero => true
  | _ => false
  end.

Definition Math_min2 (a b : float) : float :=
  if PrimFloat.is_nan a || PrimFloat.is_nan b then PrimFloat.nan
  else if PrimFloat.ltb a b then a
  else if PrimFloat.ltb b a then b
  else if is_neg_zero a then a else b.

(** [Math.min(a, b, c)]: the arguments are folded from left to right. *)
Definition Math_min (a b c : float) : float := Math_min2 (Math_min2 a b) c.

(** [!s] on a string: true exactly for the empty string. *)
Definition js_not (s : string) : bool := bool_decide (s = "").

(** [Array(n).fill(0).map((_, i) => f(i))], where [f] may throw. *)
Definition Array_fill_map {A} (n : nat) (f : nat → option A) : option (list A) :=
  mapM f (seq 0 n).

(** [m[i][j]] on an array of arrays; [None] when a cell does not exist. *)
Definition cell {A} (m : list (list A)) (i j : nat) : option A :=
  m !! i ≫= λ row, row !! j.

(** ** Tables *)

Record ZoneInfo := { x : float; y : float; color : string }.

Definition ZONES_entries : list (string * ZoneInfo) :=
  [ ("Centro", {| x := 0; y := 0; color := "#646cff" |});
    ("Norte", {| x := 0; y := 15; color := "#4CAF50" |});
    ("Sur", {| x := 0; y := -15; color := "#FF9800" |});
    ("Este", {| x := 15; y := 0; color := "#E91E63" |});
    ("Oeste", {| x := -15; y := 0; color := "#9C27B0" |}) ].

Definition ZONES : gmap string ZoneInfo := list_to_map ZONES_entries.

Record TransportInfo := { speed : float; label : string; tcolor : string }.

Definition TRANSPORT_TYPES_entries : list (string * TransportInfo) :=
  [ ("bicicleta", {| speed := 15; label := "Bicicleta"; tcolor := "#4CAF50" |});
    ("auto", {| speed := 40; label := "Auto"; tcolor := "#2196F3" |});
    ("transporte_publico",
      {| speed := 25; label := "Transporte Público"; tcolor := "#FF9800" |}) ].

Definition TRANSPORT_TYPES : gmap string TransportInfo :=
  list_to_map TRANSPORT_TYPES_entries.

(** [Object.keys(ZONES)], the options of the zone selector, and
    [Object.entries(TRANSPORT_TYPES)], those of the transport selector. *)
Definition zone_options : list string := ZONES_entries.*1.
Definition transport_options : list string := TRANSPORT_TYPES_entries.*1.

(** ** [calculateTravelTime] *)

Definition calculateTravelTime (zone1 zone2 transportType : string) : option float :=
  if decide (zone1 = zone2) then Some 0%float
  else
    z1 ← ZONES !! zone1;
    z2 ← ZONES !! zone2;
    let dx := (x z1 - x z2)%float in
    let dy := (y z1 - y z2)%float in
    let distance := Math_sqrt (dx * dx + dy * dy)%float in
    t ← TRANSPORT_TYPES !! transportType;
    Some (distance / speed t)%float.

(** The Euclidean distance between two points of the zone table, in the
    arithmetic the program uses. *)
Definition euclidean (p q : ZoneInfo) : float :=
  Math_sqrt ((x p - x q) * (x p - x q) + (y p - y q) * (y p - y q))%float.

(** ** Activities and the list handlers *)

Record Activity := {
  id : nat;
  name : string;
  value : float;
  duration : float;
  open_time : float;
  close_time : float;
  zone : string
}.

(** The form behind the "new activity" dialog: every field is the text of an
    input element. *)
Record NewActivity := {
  f_name : string;
  f_value : string;
  f_duration : string;
  f_open_time : string;
  f_close_time : string;
  f_zone : string
}.

(** What is sent for one activity: the zone is dropped. *)
Record RequestActivity := {
  r_id : nat;
  r_name : string;
  r_value : float;
  r_duration : float;
  r_open_time : float;
  r_close_time : float
}.

Record RequestBody := {
  activities : list RequestActivity;
  travel_time : list (list float);
  travel_time_bicicleta : list (list float);
  travel_time_auto : list (list float);
  travel_time_transporte_publico : list (list float);
  penalized_transport : string;
  tmax : float;
  alpha : float
}.

(** How a click on "calculate" ends, up to the network call. *)
Inductive Outcome :=
| Alerted                       (* empty list: an alert, nothing is sent *)
| Thrown                        (* a TypeError while building the request *)
| Posted (body : RequestBody).  (* [fetch] is called with this body *)

Section Handlers.

(** [parseFloat] is the host's; nothing below depends on what it returns. *)
Variable parseFloat : string → float.

Definition handleAddActivity (activities : list Activity) (newActivity : NewActivity)
  : list Activity :=
  if js_not (f_name newActivity) || js_not (f_value newActivity)
     || js_not (f_duration newActivity) || js_not (f_open_time newActivity)
     || js_not (f_close_time newActivity) || js_not (f_zone newActivity)
  then activities
  else
    let activity :=
      {| id := length activities;
         name := f_name newActivity;
         value := parseFloat (f_value newActivity);
         duration := parseFloat (f_duration newActivity);
         open_time := parseFloat (f_open_time newActivity);
         close_time := parseFloat (f_close_time newActivity);
         zone := f_zone newActivity |} in
    activities ++ [activity].

Definition handleDeleteActivity (activities : list Activity) (i : nat) : list Activity :=
  filter (λ act, id act ≠ i) activities.

(** The two buttons of the activity list, as events on its state. *)
Inductive ListEvent :=
| AddActivity (newActivity : NewActivity)
| DeleteActivity (i : nat).

Definition handle (activities : list Activity) (e : ListEvent) : list Activity :=
  match e with
  | AddActivity newActivity => handleAddActivity activities newActivity
  | DeleteActivity i => handleDeleteActivity activities i
  end.

(** The list after a sequence of events, from the initial state
    [useState([])]. *)
Definition run_events (es : list ListEvent) : list Activity :=
  foldl handle [] es.

(** ** [handleCalculate] *)

(** One per-mode matrix (the three blocks differ only in the mode). *)
Definition modeMatrix (activities : list Activity) (transportType : string)
  : option (list (list float)) :=
  let n := length activities in
  Array_fill_map n (λ i,
    Array_fill_map n (λ j,
      if decide (i = j) then Some 0%float
      else
        ai ← activities !! i;
        aj ← activities !! j;
        calculateTravelTime (zone ai) (zone aj) transportType)).

(** The combined matrix, read off the three per-mode matrices. *)
Definition combinedMatrix (n : nat)
    (travelTimeBicicleta travelTimeAuto travelTimeTransportePublico : list (list float))
  : option (list (list float)) :=
  Array_fill_map n (λ i,
    Array_fill_map n (λ j,
      if decide (i = j) then Some 0%float
      else
        b ← cell travelTimeBicicleta i j;
        a ← cell travelTimeAuto i j;
        t ← cell travelTimeTransportePublico i j;
        Some (Math_min b a t))).

Definition reindexedActivities (activities : list Activity) : list RequestActivity :=
  imap (λ idx act,
    {| r_id := idx;
       r_name := name act;
       r_value := value act;
       r_duration := duration act;
       r_open_time := open_time act;
       r_close_time := close_time act |}) activities.

Definition buildRequestBody (activities : list Activity)
    (penalizedTransport tmax alpha : string) : option RequestBody :=
  let n := length activities in
  travelTimeBicicleta ← modeMatrix activities "bicicleta";
  travelTimeAuto ← modeMatrix activities "auto";
  travelTimeTransportePublico ← modeMatrix activities "transporte_publico";
  travelTime ← combinedMatrix n travelTimeBicicleta travelTimeAuto
                  travelTimeTransportePublico;
  Some {| activities := reindexedActivities activities;
          travel_time := travelTime;
          travel_time_bicicleta := travelTimeBicicleta;
          travel_time_auto := travelTimeAuto;
          travel_time_transporte_publico := travelTimeTransportePublico;
          penalized_transport := penalizedTransport;
          tmax := parseFloat tmax;
          alpha := parseFloat alpha |}.

Definition handleCalculate (activities : list Activity)
    (penalizedTransport tmax alpha : string) : Outcome :=
  if decide (length activities = 0) then Alerted
  else
    match buildRequestBody activities penalizedTransport tmax alpha with
    | None => Thrown
    | Some body => Posted body
    end.

End Handlers.

(** The example data set of the first "load" button. *)
Definition exampleActivities : list Activity :=
  [ {| id := 0; name := "Desayuno"; value := 3; duration := 0.5;
       open_time := 7; close_time := 9; zone := "Centro" |};
    {| id := 1; name := "Gimnasio"; value := 8; duration := 1;
       open_time := 7; close_time := 11; zone := "Norte" |};
    {| id := 2; name := "Clases"; value := 12; duration := 2;
       open_time := 8; close_time := 12; zone := "Centro" |};
    {| id := 3; name := "Biblioteca"; value := 10; duration := 2;
       open_time := 9; close_time := 18; zone := "Este" |};
    {| id := 4; name := "Almuerzo"; value := 5; duration := 1;
       open_time := 12; close_time := 15; zone := "Centro" |};
    {| id := 5; name := "Trabajo grupal"; value := 9; duration := 1.5;
       open_time := 13; close_time := 17; zone := "Sur" |};
    {| id := 6; name := "Supermercado"; value := 6; duration := 0.5;
       open_time := 10; close_time := 20; zone := "Oeste" |};
    {| id := 7; name := "Descanso"; value := 4; duration := 1;
       open_time := 14; close_time := 18; zone := "Norte" |};
    {| id := 8; name := "Cena"; value := 6; duration := 1;
       open_time := 19; close_time := 22; zone := "Centro" |};
    {| id := 9; name := "Recreación"; value := 7; duration := 1.5;
       open_time := 17; close_time := 21; zone := "Sur" |} ]%float.

End Front.


(* ===================================================================== *)
(** * Part II.  The optimisation engine behind [POST /optimize]           *)
(* ===================================================================== *)

(** The service is not among the sources; every definition of this module
    follows its written design (sections 3, 4 and 6 of the specification).
    Times and scores are exact rationals. *)

Module Engine.

Local Open Scope Q_scope.

(** ** Data model (section 3) *)

(** Modelled from the spec: the Activity of section 3 with the fields a
    request supplies (section 6): identifier, display name, value, duration
    and the opening window.  The service's own record is missing. *)
Record Activity := {
  id : nat;
  name : string;
  value : Q;
  duration : Q;
  open_time : Q;
  close_time : Q
}.

(** Modelled from the spec: the RunConfig of section 3. *)
Record RunConfig := {
  time_budget : Q;
  discouraged_mode : string;
  weight : Q
}.

(** Modelled from the spec: what the Problem Encoder receives (section 4.1):
    the raw activity list, the combined matrix, the matrix of the
    discouraged mode and the run configuration. *)
Record Request := {
  activities : list Activity;
  combined : list (list Q);
  discouraged : list (list Q);
  config : RunConfig
}.

(** Modelled from the spec: a matrix cell by activity position.  Section 6
    obliges a request to bring square matrices of the activity count; a cell
    that is missing all the same is read as 0. *)
Definition entry (m : list (list Q)) (i j : nat) : Q :=
  default 0 (m !! i ≫= λ row, row !! j).

(** ** Problem Encoder (section 4.1) *)

(** Modelled from the spec: the field a Validation error points at. *)
Inductive Violation :=
| close_not_after_open      (* close_time ≤ open_time *)
| duration_not_positive     (* duration ≤ 0 *)
| duration_exceeds_window   (* duration > close_time − open_time *)
| time_budget_not_positive  (* time_budget ≤ 0 *)
| weight_negative.          (* weight < 0 *)

Inductive ValidationError :=
| InvalidActivity (activity_id : nat) (v : Violation)
| InvalidConfig (v : Violation).

(** Modelled from the spec: the three reasons to reject an activity, in the
    order section 4.1 lists them. *)
Definition check_activity (a : Activity) : option Violation :=
  if Qle_bool (close_time a) (open_time a) then Some close_not_after_open
  else if Qle_bool (duration a) 0 then Some duration_not_positive
  else if negb (Qle_bool (duration a) (close_time a - open_time a))
       then Some duration_exceeds_window
  else None.

(** Modelled from the spec: the two reasons to reject a RunConfig. *)
Definition check_config (c : RunConfig) : option Violation :=
  if Qle_bool (time_budget c) 0 then Some time_budget_not_positive
  else if negb (Qle_bool 0 (weight c)) then Some weight_negative
  else None.

(** Modelled from the spec: the activities are checked in request order;
    the first one that is rejected makes the error. *)
Fixpoint first_invalid (acts : list Activity) : option ValidationError :=
  match acts with
  | [] => None
  | a :: rest =>
      match check_activity a with
      | Some v => Some (InvalidActivity (id a) v)
      | None => first_invalid rest
      end
  end.

(** Modelled from the spec: the immutable problem instance. *)
Record Problem := {
  p_activities : list Activity;
  p_travel : list (list Q);
  p_exposure : list (list Q);
  p_config : RunConfig
}.

(** Modelled from the spec: "structurally infeasible" activities, whose
    duration does not fit their own window, are excluded up front. *)
Definition fits_window (a : Activity) : bool :=
  Qle_bool (duration a) (close_time a - open_time a).

(** Modelled from the spec: the filtered activity set, each activity with
    its position in the request. *)
Definition kept (acts : list Activity) : list (nat * Activity) :=
  filter (λ ia, fits_window ia.2) (imap pair acts).

(** Modelled from the spec: a matrix reindexed to the kept positions. *)
Definition reindex (positions : list nat) (m : list (list Q)) : list (list Q) :=
  (λ i, (λ j, entry m i j) <$> positions) <$> positions.

(** Modelled from the spec: the instance made of the filtered activities,
    the two reindexed matrices and the configuration. *)
Definition instance (r : Request) : Problem :=
  let k := kept (activities r) in
  {| p_activities := k.*2;
     p_travel := reindex k.*1 (combined r);
     p_exposure := reindex k.*1 (discouraged r);
     p_config := config r |}.

(** Modelled from the spec: the Problem Encoder. *)
Definition encode (r : Request) : ValidationError + Problem :=
  match first_invalid (activities r) with
  | Some e => inl e
  | None =>
      match check_config (config r) with
      | Some v => inl (InvalidConfig v)
      | None => inr (instance r)
      end
  end.

(** What section 4.1 calls invalid, as propositions. *)
Definition invalid_activity (a : Activity) : Prop :=
  close_time a <= open_time a ∨ duration a <= 0 ∨
  close_time a - open_time a < duration a.

Definition invalid_config (c : RunConfig) : Prop :=
  time_budget c <= 0 ∨ weight c < 0.

Definition invalid_request (r : Request) : Prop :=
  (∃ a, a ∈ activities r ∧ invalid_activity a) ∨ invalid_config (config r).

Definition violates_activity (a : Activity) (v : Violation) : Prop :=
  match v with
  | close_not_after_open => close_time a <= open_time a
  | duration_not_positive => duration a <= 0
  | duration_exceeds_window => close_time a - open_time a < duration a
  | _ => False
  end.

Definition violates_config (c : RunConfig) (v : Violation) : Prop :=
  match v with
  | time_budget_not_positive => time_budget c <= 0
  | weight_negative => weight c < 0
  | _ => False
  end.

(** The error names a field that is indeed at fault. *)
Definition identifies (r : Request) (e : ValidationError) : Prop :=
  match e with
  | InvalidActivity i v =>
      ∃ a, a ∈ activities r ∧ id a = i ∧ violates_activity a v
  | InvalidConfig v => violates_config (config r) v
  end.

(** ** Schedules and their extension (sections 3 and 4.2) *)

(** Modelled from the spec: the search node payload.  Activities are
    referred to by position in the problem instance. *)
Record Schedule := {
  route : list nat;
  elapsed : Q;
  visited : gset nat;
  cum_value : Q;
  cum_exposure : Q
}.

Definition empty_schedule : Schedule :=
  {| route := []; elapsed := 0; visited := ∅; cum_value := 0; cum_exposure := 0 |}.

Section Search.
Variable P : Problem.

(** Modelled from the spec: [travel(p, q)] and the discouraged-mode entry
    for the same step; there is no travel into the first activity. *)
Definition travel (p : option nat) (q : nat) : Q :=
  match p with
  | None => 0
  | Some p => entry (p_travel P) p q
  end.

Definition exposure (p : option nat) (q : nat) : Q :=
  match p with
  | None => 0
  | Some p => entry (p_exposure P) p q
  end.

(** Modelled from the spec: one expansion step of section 4.2 towards the
    activity at position [q]; [None] when the transition is not legal. *)
Definition extend (s : Schedule) (q : nat) : option Schedule :=
  a ← p_activities P !! q;
  let p := last (route s) in
  let arrival := elapsed s + travel p q in
  let start := Qmax arrival (open_time a) in
  let finish := start + duration a in
  if Qle_bool finish (close_time a) && Qle_bool finish (time_budget (p_config P))
  then Some {| route := route s ++ [q];
               elapsed := finish;
               visited := {[ q ]} ∪ visited s;
               cum_value := cum_value s + value a;
               cum_exposure := cum_exposure s + exposure p q |}
  else None.

(** Modelled from the spec: the not-yet-visited activities, by increasing
    position. *)
Definition unvisited (s : Schedule) : list nat :=
  filter (λ q, q ∉ visited s) (seq 0 (length (p_activities P))).

(** Modelled from the spec: all legal successors of a schedule. *)
Definition expand (s : Schedule) : list Schedule :=
  omap (extend s) (unvisited s).

(** ** Objective and bound (sections 4.2 and 4.3) *)

Definition Qsum (l : list Q) : Q := foldr Qplus 0 l.

Definition value_at (q : nat) : Q :=
  from_option value 0 (p_activities P !! q).

(** Modelled from the spec: objective = cumulative value - weight x
    cumulative discouraged exposure. *)
Definition objective (s : Schedule) : Q :=
  cum_value s - weight (p_config P) * cum_exposure s.

(** Modelled from the spec: bound = cumulative value + the values of all
    unvisited activities - weight x cumulative discouraged exposure. *)
Definition bound (s : Schedule) : Q :=
  cum_value s + Qsum (value_at <$> unvisited s)
  - weight (p_config P) * cum_exposure s.

(** ** Orders (section 4.2, tie-break) *)

(** Lexicographic order on identifier sequences. *)
Fixpoint lex_lt (l1 l2 : list nat) : bool :=
  match l1, l2 with
  | _, [] => false
  | [], _ :: _ => true
  | a :: l1', b :: l2' =>
      if decide (a < b)%nat then true
      else if decide (a = b) then lex_lt l1' l2' else false
  end.

Definition ids_of (s : Schedule) : list nat :=
  omap (λ q, id <$> p_activities P !! q) (route s).

(** Modelled from the spec: the frontier order.  The larger bound first; on
    equal bounds the schedule with fewer activities first. *)
Definition before (s1 s2 : Schedule) : bool :=
  match bound s1 ?= bound s2 with
  | Gt => true
  | Eq => bool_decide (length (route s1) < length (route s2))%nat
  | Lt => false
  end.

(** Modelled from the spec: the result order.  The higher objective; then
    the lower elapsed time; then the lexicographically smaller identifier
    sequence. *)
Definition beats (c b : Schedule) : bool :=
  match objective c ?= objective b with
  | Gt => true
  | Lt => false
  | Eq =>
      match elapsed c ?= elapsed b with
      | Lt => true
      | Gt => false
      | Eq => lex_lt (ids_of c) (ids_of b)
      end
  end.

Definition pick (best c : Schedule) : Schedule :=
  if beats c best then c else best.

(** ** The frontier: a priority queue kept as a sorted list *)

(** Modelled from the spec: insertion into the priority queue.  A new
    schedule goes behind the entries it does not precede. *)
Fixpoint push (s : Schedule) (frontier : list Schedule) : list Schedule :=
  match frontier with
  | [] => [s]
  | h :: t => if before s h then s :: h :: t else h :: push s t
  end.

(** Modelled from the spec: pruning.  Entries whose bound is no better than
    the best objective so far are dropped when they reach the head of the
    queue. *)
Fixpoint drop_pruned (best : Schedule) (frontier : list Schedule) : list Schedule :=
  match frontier with
  | [] => []
  | s :: rest =>
      if Qle_bool (bound s) (objective best) then drop_pruned best rest
      else s :: rest
  end.

(** ** Search Engine (section 4.2) *)

(** Modelled from the spec: best-first search.  [limit] is the configured
    node-expansion limit; when it is used up the best schedule so far is
    returned. *)
Fixpoint search (limit : nat) (frontier : list Schedule) (best : Schedule)
  : Schedule :=
  match limit with
  | O => best
  | S limit' =>
      match drop_pruned best frontier with
      | [] => best
      | s :: rest =>
          let successors := expand s in
          search limit' (foldl (λ f c, push c f) rest successors)
                 (foldl pick best successors)
      end
  end.

(** Modelled from the spec: the start state is the empty schedule, which
    is also the first candidate. *)
Definition run_search (limit : nat) : Schedule :=
  search limit [empty_schedule] empty_schedule.

End Search.

(** ** Objective Evaluator (section 4.3) *)

Record Metrics := {
  total_value : Q;
  total_travel_cost : Q;
  discouraged_travel_cost : Q;
  final_time : Q;
  m_objective : Q
}.

(** The matrix entries along the consecutive pairs of a route. *)
Fixpoint legs (m : list (list Q)) (r : list nat) : list Q :=
  match r with
  | p :: (q :: _) as rest => entry m p q :: legs m rest
  | _ => []
  end.

(** Modelled from the spec: the Objective Evaluator, a pure function of a
    schedule. *)
Definition evaluate (P : Problem) (s : Schedule) : Metrics :=
  let tv := Qsum (value_at P <$> route s) in
  let dc := Qsum (legs (p_exposure P) (route s)) in
  {| total_value := tv;
     total_travel_cost := Qsum (legs (p_travel P) (route s));
     discouraged_travel_cost := dc;
     final_time := elapsed s;
     m_objective := tv - weight (p_config P) * dc |}.

(** ** Result Builder (section 4.4) and the service as a whole *)

Record RouteItem := {
  item_name : string;
  item_value : Q;
  item_duration : Q
}.

Record Response := {
  r_total_value : Q;
  r_total_travel_cost : Q;
  r_penalized_travel_cost : Q;
  r_final_time : Q;
  r_objective : Q;
  r_route : list RouteItem
}.

(** Modelled from the spec: the Result Builder.  Numbers are written in
    lowest terms, the one spelling a number has on the wire. *)
Definition build_response (P : Problem) (s : Schedule) : Response :=
  let m := evaluate P s in
  {| r_total_value := Qred (total_value m);
     r_total_travel_cost := Qred (total_travel_cost m);
     r_penalized_travel_cost := Qred (discouraged_travel_cost m);
     r_final_time := Qred (final_time m);
     r_objective := Qred (m_objective m);
     r_route :=
       omap (λ q, (λ a, {| item_name := name a;
                           item_value := Qred (value a);
                           item_duration := Qred (duration a) |})
                    <$> p_activities P !! q) (route s) |}.

(** Modelled from the spec: one optimisation run, from the request to the
    response or the Validation error. *)
Definition optimize (limit : nat) (r : Request) : ValidationError + Response :=
  match encode r with
  | inl e => inl e
  | inr P => inr (build_response P (run_search P limit))
  end.

(** ** The invariants of section 3, as a check on a route *)

(** One visit of a replayed route. *)
Record Visit := {
  who : nat;
  arrival : Q;
  start : Q;
  finish : Q
}.

(** The timeline of a route: leave the previous activity (or the initial
    state) at [t], travel, wait for the opening, stay for the duration. *)
Fixpoint replay (P : Problem) (p : option nat) (t : Q) (r : list nat)
  : list Visit :=
  match r with
  | [] => []
  | q :: rest =>
      let a := p_activities P !! q in
      let arrival := t + travel P p q in
      let start := Qmax arrival (from_option open_time 0 a) in
      let finish := start + from_option duration 0 a in
      {| who := q; arrival := arrival; start := start; finish := finish |}
        :: replay P (Some q) finish rest
  end.

Definition timeline (P : Problem) (r : list nat) : list Visit := replay P None 0 r.

(** The activity a step starts from: the last of the route so far, or the
    one before the route. *)
Definition last_or (p : option nat) (r : list nat) : option nat :=
  match last r with
  | Some x => Some x
  | None => p
  end.

(** A route with the activity before it, if there is one. *)
Definition from_previous (p : option nat) (r : list nat) : list nat :=
  match p with
  | Some x => x :: r
  | None => r
  end.

(** The clock after a route. *)
Fixpoint clock (P : Problem) (p : option nat) (t : Q) (r : list nat) : Q :=
  match r with
  | [] => t
  | q :: rest =>
      let a := p_activities P !! q in
      clock P (Some q)
        (Qmax (t + travel P p q) (from_option open_time 0 a)
         + from_option duration 0 a) rest
  end.

(** The wait before a visit. *)
Definition wait (v : Visit) : Q := start v - arrival v.

(** A visit respects the window of its activity. *)
Definition in_window (P : Problem) (v : Visit) : Prop :=
  ∃ a, p_activities P !! who v = Some a ∧
       open_time a <= start v ∧ start v <= close_time a - duration a.

Definition duration_at (P : Problem) (q : nat) : Q :=
  from_option duration 0 (p_activities P !! q).

(** The invariants of section 3 on a route: no activity twice, every window
    respected, and the elapsed time within the budget. *)
Definition feasible (P : Problem) (r : list nat) : Prop :=
  NoDup r ∧ Forall (in_window P) (timeline P r) ∧
  clock P None 0 r <= time_budget (p_config P).

(** The schedules the expansion rule can produce from the start state. *)
Inductive legal (P : Problem) : Schedule → Prop :=
| legal_empty : legal P empty_schedule
| legal_extend s q s' :
    legal P s → q ∉ visited s → extend P s q = Some s' → legal P s'.

(** The response of the empty schedule. *)
Definition zero_response : Response :=
  {| r_total_value := 0; r_total_travel_cost := 0;
     r_penalized_travel_cost := 0; r_final_time := 0; r_objective := 0;
     r_route := [] |}.

(** What holds of every schedule the expansion rule can reach. *)
Definition schedule_inv (P : Problem) (s : Schedule) : Prop :=
  (∀ q, q ∈ visited s ↔ q ∈ route s) ∧
  NoDup (route s) ∧
  Forall (λ q, is_Some (p_activities P !! q)) (route s) ∧
  elapsed s = clock P None 0 (route s) ∧
  Forall (in_window P) (timeline P (route s)) ∧
  (route s ≠ [] → elapsed s <= time_budget (p_config P)) ∧
  cum_value s == Qsum (value_at P <$> route s) ∧
  cum_exposure s == Qsum (legs (p_exposure P) (route s)).

(** ** Requests that say the same

    Two requests are the same input when their activities, matrices and
    configurations agree field by field, numbers being compared by value
    (1/2 and 2/4 are the same number). *)

Definition same_activity (a b : Activity) : Prop :=
  id a = id b ∧ name a = name b ∧ value a == value b ∧
  duration a == duration b ∧ open_time a == open_time b ∧
  close_time a == close_time b.

Definition same_config (c d : RunConfig) : Prop :=
  time_budget c == time_budget d ∧ discouraged_mode c = discouraged_mode d ∧
  weight c == weight d.

Definition same_matrix (m n : list (list Q)) : Prop :=
  Forall2 (Forall2 Qeq) m n.

Definition same_request (r1 r2 : Request) : Prop :=
  Forall2 same_activity (activities r1) (activities r2) ∧
  same_matrix (combined r1) (combined r2) ∧
  same_matrix (discouraged r1) (discouraged r2) ∧
  same_config (config r1) (config r2).

(** The same, on what the search works with. *)
Definition same_entries (m n : list (list Q)) : Prop :=
  ∀ i j, entry m i j == entry n i j.

Definition same_problem (P1 P2 : Problem) : Prop :=
  Forall2 same_activity (p_activities P1) (p_activities P2) ∧
  same_entries (p_travel P1) (p_travel P2) ∧
  same_entries (p_exposure P1) (p_exposure P2) ∧
  same_config (p_config P1) (p_config P2).

Definition same_schedule (s1 s2 : Schedule) : Prop :=
  route s1 = route s2 ∧ visited s1 = visited s2 ∧
  elapsed s1 == elapsed s2 ∧ cum_value s1 == cum_value s2 ∧
  cum_exposure s1 == cum_exposure s2.

End Engine.

(* ===================================================================== *)
(** * From the request to the engine: the numbers on the wire             *)
(* ===================================================================== *)

(** The rational a finite double stands for, in lowest terms ([None] for
    infinities and [NaN]). *)
Definition float_to_Q (f : float) : option Q :=
  match Prim2SF f with
  | S754_zero _ => Some 0%Q
  | S754_finite s m e =>
      Some (Qred ((if s then -1 else 1) * (Z.pos m # 1) * Qpower 2 e)%Q)
  | _ => None
  end.

Definition matrix_to_Q (m : list (list float)) : option (list (list Q)) :=
  mapM (mapM float_to_Q) m.

(* ===================================================================== *)
(** * Concrete inputs                                                     *)
(* ===================================================================== *)

(** A filled-in form, as the dialog would hold it. *)
Definition gimnasio_form : Front.NewActivity :=
  {| Front.f_name := "Gimnasio"; Front.f_value := "8"; Front.f_duration := "1";
     Front.f_open_time := "7"; Front.f_close_time := "11";
     Front.f_zone := "Norte" |}.

(** Scenario C of the specification: A in Centro, B in Norte. *)
Definition scenarioC_activities : list Engine.Activity :=
  [ {| Engine.id := 0; Engine.name := "A"; Engine.value := 10;
       Engine.duration := 1; Engine.open_time := 8; Engine.close_time := 10 |};
    {| Engine.id := 1; Engine.name := "B"; Engine.value := 8;
       Engine.duration := 1; Engine.open_time := 9; Engine.close_time := 12 |} ]%Q.

Definition scenarioC (budget : Q) : Engine.Request :=
  {| Engine.activities := scenarioC_activities;
     Engine.combined := [ [0; 3 # 8]; [3 # 8; 0] ]%Q;
     Engine.discouraged := [ [0; 1]; [1; 0] ]%Q;
     Engine.config := {| Engine.time_budget := budget;
                         Engine.discouraged_mode := "bicicleta";
                         Engine.weight := (1 # 2)%Q |} |}.

(** The same two activities as the front end holds them. *)
Definition scenarioC_front : list Front.Activity :=
  [ {| Front.id := 0; Front.name := "A"; Front.value := 10; Front.duration := 1;
       Front.open_time := 8; Front.close_time := 10; Front.zone := "Centro" |};
    {| Front.id := 1; Front.name := "B"; Front.value := 8; Front.duration := 1;
       Front.open_time := 9; Front.close_time := 12; Front.zone := "Norte" |} ]%float.

(** What the engine answers on Scenario C once the budget covers the clock
    times of the two windows. *)
Definition scenarioC_route_AB : Engine.Response :=
  {| Engine.r_total_value := 18;
     Engine.r_total_travel_cost := 3 # 8;
     Engine.r_penalized_travel_cost := 1;
     Engine.r_final_time := 83 # 8;
     Engine.r_objective := 35 # 2;
     Engine.r_route :=
       [ {| Engine.item_name := "A"; Engine.item_value := 10;
            Engine.item_duration := 1 |};
         {| Engine.item_name := "B"; Engine.item_value := 8;
            Engine.item_duration := 1 |} ] |}%Q.

(** Scenario C once more, every number spelled differently. *)
Definition scenarioC_respelled : Engine.Request :=
  {| Engine.activities :=
       [ {| Engine.id := 0; Engine.name := "A"; Engine.value := 20 # 2;
            Engine.duration := 3 # 3; Engine.open_time := 16 # 2;
            Engine.close_time := 100 # 10 |};
         {| Engine.id := 1; Engine.name := "B"; Engine.value := 16 # 2;
            Engine.duration := 2 # 2; Engine.open_time := 27 # 3;
            Engine.close_time := 24 # 2 |} ]%Q;
     Engine.combined := [ [0 # 5; 375 # 1000]; [6 # 16; 0] ]%Q;
     Engine.discouraged := [ [0; 4 # 4]; [1; 0 # 2] ]%Q;
     Engine.config := {| Engine.time_budget := 24 # 2;
                         Engine.discouraged_mode := "bicicleta";
                         Engine.weight := (5 # 10)%Q |} |}.
Example calculateTravelTime_centro_norte_auto :
  Front.calculateTravelTime "Centro" "Norte" "auto" = Some 0.375%float.
Proof. vm_compute. reflexivity. Qed.

(* ===================================================================== *)
(** * Part III.  The rest of the component: its state and its buttons     *)
(* ===================================================================== *)

(** The [App] component keeps the activity list, the dialog flag, the three
    configuration inputs and the form of the dialog in React state; every
    button and input is a handler replacing part of that state.  [results]
    and [loading], which only the network call writes, are left out. *)

Module App.

Record State := {
  activities : list Front.Activity;
  showModal : bool;
  tmax : string;
  penalizedTransport : string;
  alpha : string;
  newActivity : Front.NewActivity
}.

(** The form as [useState] creates it and as a successful add leaves it. *)
Definition emptyForm : Front.NewActivity :=
  {| Front.f_name := ""; Front.f_value := ""; Front.f_duration := "";
     Front.f_open_time := ""; Front.f_close_time := "";
     Front.f_zone := "Centro" |}.

Definition initialState : State :=
  {| activities := []; showModal := false; tmax := "20";
     penalizedTransport := "bicicleta"; alpha := "0.25";
     newActivity := emptyForm |}.

(** The data set of the second "load" button. *)
Definition sustainabilityActivities : list Front.Activity :=
  [ {| Front.id := 0; Front.name := "Yoga matutino"; Front.value := 7;
       Front.duration := 1; Front.open_time := 6; Front.close_time := 9;
       Front.zone := "Norte" |};
    {| Front.id := 1; Front.name := "Reunión virtual"; Front.value := 10;
       Front.duration := 1.5; Front.open_time := 9; Front.close_time := 13;
       Front.zone := "Centro" |};
    {| Front.id := 2; Front.name := "Almuerzo saludable"; Front.value := 6;
       Front.duration := 1; Front.open_time := 12; Front.close_time := 15;
       Front.zone := "Centro" |};
    {| Front.id := 3; Front.name := "Taller presencial"; Front.value := 15;
       Front.duration := 2.5; Front.open_time := 14; Front.close_time := 18;
       Front.zone := "Oeste" |};
    {| Front.id := 4; Front.name := "Mercado local"; Front.value := 8;
       Front.duration := 1; Front.open_time := 10; Front.close_time := 20;
       Front.zone := "Este" |};
    {| Front.id := 5; Front.name := "Ciclismo recreativo"; Front.value := 9;
       Front.duration := 1.5; Front.open_time := 16; Front.close_time := 20;
       Front.zone := "Sur" |};
    {| Front.id := 6; Front.name := "Cena con amigos"; Front.value := 8;
       Front.duration := 2; Front.open_time := 19; Front.close_time := 22;
       Front.zone := "Norte" |};
    {| Front.id := 7; Front.name := "Café networking"; Front.value := 11;
       Front.duration := 1; Front.open_time := 10; Front.close_time := 17;
       Front.zone := "Este" |} ]%float.

(** The test that opens [handleAddActivity]: some field of the form is
    empty. *)
Definition form_incomplete (newActivity : Front.NewActivity) : bool :=
  Front.js_not (Front.f_name newActivity) || Front.js_not (Front.f_value newActivity)
  || Front.js_not (Front.f_duration newActivity)
  || Front.js_not (Front.f_open_time newActivity)
  || Front.js_not (Front.f_close_time newActivity)
  || Front.js_not (Front.f_zone newActivity).

Section Handlers.
Variable parseFloat : string → float.

(** [handleAddActivity] on the whole state: an alert and nothing else when
    the form is incomplete; otherwise the activity is appended, the form is
    reset and the dialog is closed. *)
Definition handleAddActivity (s : State) : State :=
  if form_incomplete (newActivity s) then s
  else
    {| activities := Front.handleAddActivity parseFloat (activities s) (newActivity s);
       showModal := false;
       tmax := tmax s;
       penalizedTransport := penalizedTransport s;
       alpha := alpha s;
       newActivity := emptyForm |}.

Definition setActivities (s : State) (l : list Front.Activity) : State :=
  {| activities := l; showModal := showModal s; tmax := tmax s;
     penalizedTransport := penalizedTransport s; alpha := alpha s;
     newActivity := newActivity s |}.

Definition setShowModal (s : State) (b : bool) : State :=
  {| activities := activities s; showModal := b; tmax := tmax s;
     penalizedTransport := penalizedTransport s; alpha := alpha s;
     newActivity := newActivity s |}.

Definition setNewActivity (s : State) (f : Front.NewActivity) : State :=
  {| activities := activities s; showModal := showModal s; tmax := tmax s;
     penalizedTransport := penalizedTransport s; alpha := alpha s;
     newActivity := f |}.

Definition handleDeleteActivity (s : State) (i : nat) : State :=
  setActivities s (Front.handleDeleteActivity (activities s) i).

Definition handleLoadExampleActivities (s : State) : State :=
  setActivities s Front.exampleActivities.

Definition handleLoadSustainabilityExample (s : State) : State :=
  setActivities s sustainabilityActivities.

(** What the user can do between two clicks on "calculate".  The events of
    the dialog are taken in every state, shown or not: these are more
    sequences than the page allows, none fewer. *)
Inductive Event :=
| OpenModal                         (* the "add activity" button *)
| CloseModal                        (* "cancel", or a click beside the dialog *)
| SetName (v : string)              (* the inputs of the dialog *)
| SetValue (v : string)
| SetDuration (v : string)
| SetOpenTime (v : string)
| SetCloseTime (v : string)
| SetZone (v : string)
| SetTmax (v : string)              (* the three configuration inputs *)
| SetPenalizedTransport (v : string)
| SetAlpha (v : string)
| ClickAdd                          (* "add", in the dialog *)
| ClickDelete (i : nat)             (* the X of the activity with id [i] *)
| LoadExample
| LoadSustainability.

Definition step (s : State) (e : Event) : State :=
  let f := newActivity s in
  match e with
  | OpenModal => setShowModal s true
  | CloseModal => setShowModal s false
  | SetName v =>
      setNewActivity s
        {| Front.f_name := v; Front.f_value := Front.f_value f;
           Front.f_duration := Front.f_duration f;
           Front.f_open_time := Front.f_open_time f;
           Front.f_close_time := Front.f_close_time f;
           Front.f_zone := Front.f_zone f |}
  | SetValue v =>
      setNewActivity s
        {| Front.f_name := Front.f_name f; Front.f_value := v;
           Front.f_duration := Front.f_duration f;
           Front.f_open_time := Front.f_open_time f;
           Front.f_close_time := Front.f_close_time f;
           Front.f_zone := Front.f_zone f |}
  | SetDuration v =>
      setNewActivity s
        {| Front.f_name := Front.f_name f; Front.f_value := Front.f_value f;
           Front.f_duration := v;
           Front.f_open_time := Front.f_open_time f;
           Front.f_close_time := Front.f_close_time f;
           Front.f_zone := Front.f_zone f |}
  | SetOpenTime v =>
      setNewActivity s
        {| Front.f_name := Front.f_name f; Front.f_value := Front.f_value f;
           Front.f_duration := Front.f_duration f;
           Front.f_open_time := v;
           Front.f_close_time := Front.f_close_time f;
           Front.f_zone := Front.f_zone f |}
  | SetCloseTime v =>
      setNewActivity s
        {| Front.f_name := Front.f_name f; Front.f_value := Front.f_value f;
           Front.f_duration := Front.f_duration f;
           Front.f_open_time := Front.f_open_time f;
           Front.f_close_time := v;
           Front.f_zone := Front.f_zone f |}
  | SetZone v =>
      setNewActivity s
        {| Front.f_name := Front.f_name f; Front.f_value := Front.f_value f;
           Front.f_duration := Front.f_duration f;
           Front.f_open_time := Front.f_open_time f;
           Front.f_close_time := Front.f_close_time f;
           Front.f_zone := v |}
  | SetTmax v =>
      {| activities := activities s; showModal := showModal s; tmax := v;
         penalizedTransport := penalizedTransport s; alpha := alpha s;
         newActivity := f |}
  | SetPenalizedTransport v =>
      {| activities := activities s; showModal := showModal s; tmax := tmax s;
         penalizedTransport := v; alpha := alpha s; newActivity := f |}
  | SetAlpha v =>
      {| activities := activities s; showModal := showModal s; tmax := tmax s;
         penalizedTransport := penalizedTransport s; alpha := v;
         newActivity := f |}
  | ClickAdd => handleAddActivity s
  | ClickDelete i => handleDeleteActivity s i
  | LoadExample => handleLoadExampleActivities s
  | LoadSustainability => handleLoadSustainabilityExample s
  end.

(** The state after a sequence of events, from the first render. *)
Definition run (es : list Event) : State := foldl step initialState es.

(** A click on "calculate" in a state. *)
Definition handleCalculate (s : State) : Front.Outcome :=
  Front.handleCalculate parseFloat (activities s) (penalizedTransport s)
    (tmax s) (alpha s).

End Handlers.

(** The zone selector offers the keys of [ZONES] only. *)
Definition selectable (e : Event) : Prop :=
  match e with
  | SetZone v => v ∈ Front.zone_options
  | _ => True
  end.

Definition is_delete (e : Event) : bool :=
  match e with
  | ClickDelete _ => true
  | _ => false
  end.

(** An activity without its identifier. *)
Definition content (a : Front.Activity)
  : string * float * float * float * float * string :=
  (Front.name a, Front.value a, Front.duration a, Front.open_time a,
   Front.close_time a, Front.zone a).

(** The identifiers of the list are its positions. *)
Definition ids_are_positions (s : State) : Prop :=
  Front.id <$> activities s = seq 0 (length (activities s)).

(** The zones in a state are all keys of [ZONES]. *)
Definition zones_known (s : State) : Prop :=
  Forall (λ a, Front.zone a ∈ Front.zone_options) (activities s) ∧
  Front.f_zone (newActivity s) ∈ Front.zone_options.

End App.

(* ===================================================================== *)
(** * Facts about the front end                                           *)
(* ===================================================================== *)

Lemma Array_fill_map_length {A} n (f : nat → option A) l :
  Front.Array_fill_map n f = Some l → length l = n.
Proof.
  unfold Front.Array_fill_map. intros H.
  apply length_mapM in H. by rewrite length_seq in H.
Qed.

Lemma Array_fill_map_lookup {A} n (f : nat → option A) l i :
  Front.Array_fill_map n f = Some l → i < n → ∃ v, l !! i = Some v ∧ f i = Some v.
Proof.
  unfold Front.Array_fill_map. intros H Hi.
  apply mapM_Some_1 in H.
  destruct (Forall2_lookup_l _ _ _ i i H) as (v & Hv & Hf).
  { by apply lookup_seq_lt. }
  eauto.
Qed.

(** Two nested fills give a square table whose cell (i, j) is [g i j]. *)
Lemma fill2_cell {A} n (g : nat → nat → option A) M i j :
  Front.Array_fill_map n (λ i, Front.Array_fill_map n (g i)) = Some M →
  i < n → j < n → ∃ v, Front.cell M i j = Some v ∧ g i j = Some v.
Proof.
  intros HM Hi Hj.
  destruct (Array_fill_map_lookup _ _ _ i HM Hi) as (row & Hrow & Hfill).
  destruct (Array_fill_map_lookup _ _ _ j Hfill Hj) as (v & Hv & Hg).
  exists v. split; [|done]. unfold Front.cell. by rewrite Hrow.
Qed.

Lemma fill2_square {A} n (g : nat → nat → option A) M :
  Front.Array_fill_map n (λ i, Front.Array_fill_map n (g i)) = Some M →
  length M = n ∧ Forall (λ row, length row = n) M.
Proof.
  intros HM. split; [by eapply Array_fill_map_length|].
  apply mapM_Some_1 in HM. apply Forall_forall. intros row Hrow.
  apply list_elem_of_lookup in Hrow as [i Hi].
  destruct (Forall2_lookup_r _ _ _ i row HM Hi) as (k & _ & Hk).
  by eapply Array_fill_map_length.
Qed.

Lemma cell_in_range {A} (M : list (list A)) n i j v :
  length M = n → Forall (λ row, length row = n) M →
  Front.cell M i j = Some v → i < n ∧ j < n.
Proof.
  intros Hlen Hrows. unfold Front.cell. intros H.
  destruct (M !! i) as [row|] eqn:Hrow; simpl in H; [|done].
  split.
  - rewrite <- Hlen. by eapply lookup_lt_Some.
  - rewrite Forall_forall in Hrows.
    rewrite <- (Hrows row); [by eapply lookup_lt_Some|].
    apply list_elem_of_lookup. eauto.
Qed.

(** ** The zone table and [calculateTravelTime] *)

Lemma ZONES_lookup_entry z p :
  Front.ZONES !! z = Some p → (z, p) ∈ Front.ZONES_entries.
Proof. apply elem_of_list_to_map_2. Qed.

Lemma TRANSPORT_TYPES_lookup_entry m t :
  Front.TRANSPORT_TYPES !! m = Some t → (m, t) ∈ Front.TRANSPORT_TYPES_entries.
Proof. apply elem_of_list_to_map_2. Qed.

(** Split a membership in one of the two literal tables into its entries. *)
Ltac table_cases H :=
  first [ apply ZONES_lookup_entry in H; unfold Front.ZONES_entries in H
        | apply TRANSPORT_TYPES_lookup_entry in H;
          unfold Front.TRANSPORT_TYPES_entries in H ];
  repeat (apply elem_of_cons in H as [H|H]; [injection H as -> ->|]);
  try (apply elem_of_nil in H; destruct H).

Ltac option_cases H :=
  unfold Front.zone_options, Front.transport_options in H; simpl in H;
  repeat (apply elem_of_cons in H as [->|H]);
  try (apply elem_of_nil in H; destruct H).

(** What a successful call has looked up. *)
Lemma calculateTravelTime_Some z1 z2 m v :
  Front.calculateTravelTime z1 z2 m = Some v →
  (z1 = z2 ∧ v = 0%float) ∨
  (z1 ≠ z2 ∧ ∃ p q t,
      Front.ZONES !! z1 = Some p ∧ Front.ZONES !! z2 = Some q ∧
      Front.TRANSPORT_TYPES !! m = Some t ∧
      v = (Front.euclidean p q / Front.speed t)%float).
Proof.
  unfold Front.calculateTravelTime. intros H.
  destruct (decide (z1 = z2)) as [->|Hne]; [left; split; congruence|].
  right. split; [done|].
  destruct (Front.ZONES !! z1) as [p|]; simpl in H; [|done].
  destruct (Front.ZONES !! z2) as [q|]; simpl in H; [|done].
  destruct (Front.TRANSPORT_TYPES !! m) as [t|]; simpl in H; [|done].
  exists p, q, t. injection H as <-. done.
Qed.

(** The distance does not depend on the direction of travel. *)
Lemma calculateTravelTime_sym z1 z2 m :
  Front.calculateTravelTime z1 z2 m = Front.calculateTravelTime z2 z1 m.
Proof.
  unfold Front.calculateTravelTime.
  destruct (decide (z1 = z2)) as [->|Hne].
  { by rewrite decide_True. }
  rewrite (decide_False (P := z2 = z1)) by congruence.
  destruct (Front.ZONES !! z1) as [p|] eqn:Hp;
    destruct (Front.ZONES !! z2) as [q|] eqn:Hq; simpl; try done.
  destruct (Front.TRANSPORT_TYPES !! m) as [t|]; simpl; [|done].
  table_cases Hp; table_cases Hq; vm_compute; reflexivity.
Qed.

(** On one pair of zones the car is never slower than the other two modes,
    so [Math.min] over the three times returns the car's. *)
Lemma Math_min_is_auto z1 z2 b a t :
  Front.calculateTravelTime z1 z2 "bicicleta" = Some b →
  Front.calculateTravelTime z1 z2 "auto" = Some a →
  Front.calculateTravelTime z1 z2 "transporte_publico" = Some t →
  Front.Math_min b a t = a ∧
  PrimFloat.leb a b = true ∧ PrimFloat.leb a a = true ∧ PrimFloat.leb a t = true.
Proof.
  intros Hb Ha Ht.
  apply calculateTravelTime_Some in Hb as [[-> ->]|(Hne & p & q & s & Hp & Hq & Hs & ->)].
  { unfold Front.calculateTravelTime in Ha, Ht.
    rewrite decide_True in Ha, Ht by done.
    injection Ha as <-. injection Ht as <-. by vm_compute. }
  unfold Front.calculateTravelTime in Ha, Ht.
  rewrite decide_False in Ha, Ht by done.
  rewrite Hp, Hq in Ha, Ht. simpl in Ha, Ht.
  injection Ha as <-. injection Ht as <-.
  vm_compute in Hs. injection Hs as <-.
  table_cases Hp; table_cases Hq; by vm_compute.
Qed.

Lemma calculateTravelTime_known z1 z2 m :
  z1 ∈ Front.zone_options → z2 ∈ Front.zone_options →
  m ∈ Front.transport_options →
  is_Some (Front.calculateTravelTime z1 z2 m).
Proof.
  intros H1 H2 Hm.
  option_cases H1; option_cases H2; option_cases Hm; vm_compute; eauto.
Qed.

(** ** The matrices of [handleCalculate] *)

Lemma Array_fill_map_is_Some {A} n (f : nat → option A) :
  (∀ i, i < n → is_Some (f i)) → is_Some (Front.Array_fill_map n f).
Proof.
  intros Hf. unfold Front.Array_fill_map. apply mapM_is_Some_2.
  apply Forall_forall. intros i Hi. apply elem_of_seq in Hi. apply Hf. lia.
Qed.

(** Two tables of the same square shape with the same cells are equal. *)
Lemma matrix_ext {A} (M N : list (list A)) n :
  length M = n → Forall (λ row, length row = n) M →
  length N = n → Forall (λ row, length row = n) N →
  (∀ i j, i < n → j < n → Front.cell M i j = Front.cell N i j) →
  M = N.
Proof.
  intros HM HMr HN HNr Hcell.
  apply list_eq_same_length with n; [done..|].
  intros i r1 r2 Hi H1 H2.
  assert (length r1 = n) as Hr1.
  { rewrite Forall_forall in HMr. apply HMr, list_elem_of_lookup; eauto. }
  assert (length r2 = n) as Hr2.
  { rewrite Forall_forall in HNr. apply HNr, list_elem_of_lookup; eauto. }
  apply list_eq_same_length with n; [done..|].
  intros j a b Hj Ha Hb.
  specialize (Hcell i j Hi Hj). unfold Front.cell in Hcell.
  rewrite H1, H2 in Hcell. simpl in Hcell. congruence.
Qed.

Lemma modeMatrix_square acts m M :
  Front.modeMatrix acts m = Some M →
  length M = length acts ∧ Forall (λ row, length row = length acts) M.
Proof. apply fill2_square. Qed.

Lemma modeMatrix_diag acts m M i :
  Front.modeMatrix acts m = Some M → i < length acts →
  Front.cell M i i = Some 0%float.
Proof.
  intros HM Hi.
  destruct (fill2_cell _ _ _ i i HM Hi Hi) as (v & Hv & Hg).
  rewrite decide_True in Hg by done. congruence.
Qed.

Lemma modeMatrix_cell acts m M i j :
  Front.modeMatrix acts m = Some M →
  i < length acts → j < length acts → i ≠ j →
  ∃ ai aj v, acts !! i = Some ai ∧ acts !! j = Some aj ∧
    Front.cell M i j = Some v ∧
    Front.calculateTravelTime (Front.zone ai) (Front.zone aj) m = Some v.
Proof.
  intros HM Hi Hj Hne.
  destruct (fill2_cell _ _ _ i j HM Hi Hj) as (v & Hv & Hg).
  rewrite decide_False in Hg by done.
  destruct (lookup_lt_is_Some_2 acts i Hi) as [ai Hai].
  destruct (lookup_lt_is_Some_2 acts j Hj) as [aj Haj].
  rewrite Hai, Haj in Hg. simpl in Hg.
  exists ai, aj, v. done.
Qed.

Lemma modeMatrix_sym acts m M i j :
  Front.modeMatrix acts m = Some M → Front.cell M i j = Front.cell M j i.
Proof.
  intros HM. destruct (modeMatrix_square _ _ _ HM) as [Hlen Hrows].
  destruct (decide (i < length acts ∧ j < length acts)) as [[Hi Hj]|Hout].
  - destruct (decide (i = j)) as [->|Hne]; [done|].
    destruct (modeMatrix_cell _ _ _ i j HM Hi Hj Hne)
      as (ai & aj & v & Hai & Haj & Hv & Hc).
    destruct (modeMatrix_cell _ _ _ j i HM Hj Hi (not_eq_sym Hne))
      as (aj' & ai' & w & Haj' & Hai' & Hw & Hc').
    rewrite Hv, Hw. rewrite calculateTravelTime_sym in Hc. congruence.
  - destruct (Front.cell M i j) as [v|] eqn:Hv.
    { apply (cell_in_range _ _ _ _ _ Hlen Hrows) in Hv. lia. }
    destruct (Front.cell M j i) as [w|] eqn:Hw; [|done].
    apply (cell_in_range _ _ _ _ _ Hlen Hrows) in Hw. lia.
Qed.

Lemma modeMatrix_is_Some acts m :
  Forall (λ a, Front.zone a ∈ Front.zone_options) acts →
  m ∈ Front.transport_options →
  is_Some (Front.modeMatrix acts m).
Proof.
  intros Hz Hm. unfold Front.modeMatrix.
  apply Array_fill_map_is_Some. intros i Hi.
  apply Array_fill_map_is_Some. intros j Hj.
  destruct (decide (i = j)); [done|].
  destruct (lookup_lt_is_Some_2 acts i Hi) as [ai Hai].
  destruct (lookup_lt_is_Some_2 acts j Hj) as [aj Haj].
  rewrite Hai, Haj. simpl.
  rewrite Forall_forall in Hz.
  apply calculateTravelTime_known; [apply Hz..|done];
    apply list_elem_of_lookup; eauto.
Qed.

(** ** The request body *)

Section Request.
Variable parseFloat : string → float.

Lemma handleCalculate_Posted acts pt tm al body :
  Front.handleCalculate parseFloat acts pt tm al = Front.Posted body →
  acts ≠ [] ∧ Front.buildRequestBody parseFloat acts pt tm al = Some body.
Proof.
  unfold Front.handleCalculate. intros H.
  destruct (decide (length acts = 0)); [done|].
  destruct (Front.buildRequestBody parseFloat acts pt tm al); [|done].
  split; [by intros ->|congruence].
Qed.

Lemma buildRequestBody_Some acts pt tm al body :
  Front.buildRequestBody parseFloat acts pt tm al = Some body →
  Front.modeMatrix acts "bicicleta" = Some (Front.travel_time_bicicleta body) ∧
  Front.modeMatrix acts "auto" = Some (Front.travel_time_auto body) ∧
  Front.modeMatrix acts "transporte_publico"
    = Some (Front.travel_time_transporte_publico body) ∧
  Front.combinedMatrix (length acts) (Front.travel_time_bicicleta body)
    (Front.travel_time_auto body) (Front.travel_time_transporte_publico body)
    = Some (Front.travel_time body) ∧
  Front.activities body = Front.reindexedActivities acts.
Proof.
  unfold Front.buildRequestBody. intros H.
  destruct (Front.modeMatrix acts "bicicleta") as [B|]; simpl in H; [|done].
  destruct (Front.modeMatrix acts "auto") as [U|]; simpl in H; [|done].
  destruct (Front.modeMatrix acts "transporte_publico") as [T|]; simpl in H; [|done].
  destruct (Front.combinedMatrix (length acts) B U T) as [C|] eqn:HC;
    simpl in H; [|done].
  injection H as <-. done.
Qed.

(** The combined matrix, cell by cell, for three well-shaped mode matrices. *)
Lemma combinedMatrix_cell n B U T C i j :
  Front.combinedMatrix n B U T = Some C → i < n → j < n → i ≠ j →
  ∃ b a t, Front.cell B i j = Some b ∧ Front.cell U i j = Some a ∧
    Front.cell T i j = Some t ∧ Front.cell C i j = Some (Front.Math_min b a t).
Proof.
  intros HC Hi Hj Hne.
  destruct (fill2_cell _ _ _ i j HC Hi Hj) as (v & Hv & Hg).
  rewrite decide_False in Hg by done.
  destruct (Front.cell B i j) as [b|]; simpl in Hg; [|done].
  destruct (Front.cell U i j) as [a|]; simpl in Hg; [|done].
  destruct (Front.cell T i j) as [t|]; simpl in Hg; [|done].
  exists b, a, t. repeat split; congruence.
Qed.

Lemma combinedMatrix_diag n B U T C i :
  Front.combinedMatrix n B U T = Some C → i < n →
  Front.cell C i i = Some 0%float.
Proof.
  intros HC Hi.
  destruct (fill2_cell _ _ _ i i HC Hi Hi) as (v & Hv & Hg).
  rewrite decide_True in Hg by done. congruence.
Qed.

(** With the three mode matrices of one activity list, the combined cell is
    the car's cell. *)
Lemma combined_cell_auto acts B U T C i j :
  Front.modeMatrix acts "bicicleta" = Some B →
  Front.modeMatrix acts "auto" = Some U →
  Front.modeMatrix acts "transporte_publico" = Some T →
  Front.combinedMatrix (length acts) B U T = Some C →
  i < length acts → j < length acts →
  Front.cell C i j = Front.cell U i j.
Proof.
  intros HB HU HT HC Hi Hj.
  destruct (decide (i = j)) as [->|Hne].
  { rewrite (combinedMatrix_diag _ _ _ _ _ _ HC Hi).
    by rewrite (modeMatrix_diag _ _ _ _ HU Hi). }
  destruct (combinedMatrix_cell _ _ _ _ _ _ _ HC Hi Hj Hne)
    as (b & a & t & Hb & Ha & Ht & Hc).
  destruct (modeMatrix_cell _ _ _ _ _ HB Hi Hj Hne) as (ai & aj & b' & Hai & Haj & Hb' & Hcb).
  destruct (modeMatrix_cell _ _ _ _ _ HU Hi Hj Hne) as (ai1 & aj1 & a' & ? & ? & Ha' & Hca).
  destruct (modeMatrix_cell _ _ _ _ _ HT Hi Hj Hne) as (ai2 & aj2 & t' & ? & ? & Ht' & Hct).
  simplify_eq.
  destruct (Math_min_is_auto _ _ _ _ _ Hcb Hca Hct) as [Hmin _].
  rewrite Hc, Ha. by rewrite Hmin.
Qed.

(** The click goes through for a non-empty list over the zones on offer. *)
Lemma handleCalculate_posts acts pt tm al :
  acts ≠ [] →
  Forall (λ a, Front.zone a ∈ Front.zone_options) acts →
  ∃ body, Front.handleCalculate parseFloat acts pt tm al = Front.Posted body.
Proof.
  intros Hne Hz. unfold Front.handleCalculate.
  rewrite decide_False by (by destruct acts).
  unfold Front.buildRequestBody.
  destruct (modeMatrix_is_Some acts "bicicleta" Hz) as [B HB];
    [by vm_compute; set_solver|].
  destruct (modeMatrix_is_Some acts "auto" Hz) as [U HU];
    [by vm_compute; set_solver|].
  destruct (modeMatrix_is_Some acts "transporte_publico" Hz) as [T HT];
    [by vm_compute; set_solver|].
  rewrite HB, HU, HT. simpl.
  assert (is_Some (Front.combinedMatrix (length acts) B U T)) as [C HC].
  { apply Array_fill_map_is_Some. intros i Hi.
    apply Array_fill_map_is_Some. intros j Hj.
    destruct (decide (i = j)) as [|Hij]; [done|].
    destruct (modeMatrix_cell _ _ _ _ _ HB Hi Hj Hij) as (? & ? & b & _ & _ & -> & _).
    destruct (modeMatrix_cell _ _ _ _ _ HU Hi Hj Hij) as (? & ? & a & _ & _ & -> & _).
    destruct (modeMatrix_cell _ _ _ _ _ HT Hi Hj Hij) as (? & ? & t & _ & _ & -> & _).
    simpl. eauto. }
  rewrite HC. simpl. eauto.
Qed.

End Request.

(** ** Identifiers *)

Lemma reindexedActivities_ids acts :
  Front.r_id <$> Front.reindexedActivities acts = seq 0 (length acts).
Proof.
  unfold Front.reindexedActivities.
  apply list_eq. intros i.
  rewrite list_lookup_fmap, list_lookup_imap.
  destruct (acts !! i) as [a|] eqn:Ha; simpl.
  - symmetry. apply lookup_seq_lt. by eapply lookup_lt_Some.
  - symmetry. apply lookup_seq_ge. by apply lookup_ge_None.
Qed.

(** Whatever the list went through, the identifiers that are sent are the
    positions, hence pairwise distinct. *)
Lemma reindexedActivities_NoDup acts :
  NoDup (Front.r_id <$> Front.reindexedActivities acts).
Proof. rewrite reindexedActivities_ids. apply NoDup_seq. Qed.

(** As long as nothing is deleted, the identifiers are the positions. *)
Lemma handleAddActivity_ids parseFloat acts form :
  Front.id <$> acts = seq 0 (length acts) →
  Front.id <$> Front.handleAddActivity parseFloat acts form
  = seq 0 (length (Front.handleAddActivity parseFloat acts form)).
Proof.
  intros Hids. unfold Front.handleAddActivity.
  destruct (_ || _); [done|].
  rewrite fmap_app, length_app, seq_app, Hids. done.
Qed.

Lemma add_only_ids parseFloat forms :
  let acts := Front.run_events parseFloat (Front.AddActivity <$> forms) in
  Front.id <$> acts = seq 0 (length acts) ∧ NoDup (Front.id <$> acts).
Proof.
  simpl. assert (Front.id <$> Front.run_events parseFloat
                   (Front.AddActivity <$> forms)
                 = seq 0 (length (Front.run_events parseFloat
                                    (Front.AddActivity <$> forms)))) as H.
  { unfold Front.run_events.
    induction forms as [|form forms IH] using rev_ind; [done|].
    rewrite fmap_app, foldl_app. simpl. by apply handleAddActivity_ids. }
  split; [done|]. rewrite H. apply NoDup_seq.
Qed.

(** * Specified properties of the front end *)

(** C1: for every ordered pair of the five zones (Centro (0,0), Norte (0,15),
    Sur (0,-15), Este (15,0), Oeste (-15,0)) and each of the three modes
    (bicicleta 15, auto 40, transporte_publico 25), [calculateTravelTime]
    returns the Euclidean distance between the two zones' coordinates divided
    by the mode's speed (in the double arithmetic of the program), and it
    returns 0 when the two labels are the same. *)
Theorem calculateTravelTime_distance_over_speed z1 z2 m :
  z1 ∈ Front.zone_options → z2 ∈ Front.zone_options →
  m ∈ Front.transport_options →
  (∃ p q t,
      Front.ZONES !! z1 = Some p ∧ Front.ZONES !! z2 = Some q ∧
      Front.TRANSPORT_TYPES !! m = Some t ∧
      Front.calculateTravelTime z1 z2 m
        = Some (Front.euclidean p q / Front.speed t)%float) ∧
  (z1 = z2 → Front.calculateTravelTime z1 z2 m = Some 0%float) ∧
  (λ e, (e.1, Front.x e.2, Front.y e.2)) <$> Front.ZONES_entries
    = [ ("Centro", 0, 0); ("Norte", 0, 15); ("Sur", 0, -15);
        ("Este", 15, 0); ("Oeste", -15, 0) ]%float ∧
  (λ e, (e.1, Front.speed e.2)) <$> Front.TRANSPORT_TYPES_entries
    = [ ("bicicleta", 15); ("auto", 40); ("transporte_publico", 25) ]%float.
Proof.
  intros H1 H2 Hm. split; [|split; [|split; reflexivity]].
  - option_cases H1; option_cases H2; option_cases Hm;
      eexists _, _, _; vm_compute; repeat split; reflexivity.
  - intros ->. unfold Front.calculateTravelTime. by rewrite decide_True.
Qed.

Lemma calculateTravelTime_distance_over_speed_witness :
  Front.calculateTravelTime "Norte" "Este" "transporte_publico"
    = Some (Front.Math_sqrt 450 / 25)%float.
Proof.
  destruct (calculateTravelTime_distance_over_speed
              "Norte" "Este" "transporte_publico")
    as [(p & q & t & Hp & Hq & Ht & Hc) _].
  - apply (bool_decide_unpack _). vm_compute. reflexivity.
  - apply (bool_decide_unpack _). vm_compute. reflexivity.
  - apply (bool_decide_unpack _). vm_compute. reflexivity.
  - vm_compute in Hp, Hq, Ht.
    injection Hp as <-. injection Hq as <-. injection Ht as <-.
    vm_compute in Hc. vm_compute. exact Hc.
Defined.

(** C2: in a request built by [handleCalculate] from n activities, the
    combined matrix holds at every off-diagonal position (i, j) the
    [Math.min] of the bicycle, car and public-transport entries at (i, j),
    which is one of the three and not above any of them, and 0 at every
    diagonal position. *)
Theorem combined_matrix_is_minimum parseFloat acts pt tm al body :
  Front.handleCalculate parseFloat acts pt tm al = Front.Posted body →
  (∀ i j, i < length acts → j < length acts → i ≠ j →
     ∃ b a t,
       Front.cell (Front.travel_time_bicicleta body) i j = Some b ∧
       Front.cell (Front.travel_time_auto body) i j = Some a ∧
       Front.cell (Front.travel_time_transporte_publico body) i j = Some t ∧
       Front.cell (Front.travel_time body) i j = Some (Front.Math_min b a t) ∧
       (Front.Math_min b a t = b ∨ Front.Math_min b a t = a
          ∨ Front.Math_min b a t = t) ∧
       PrimFloat.leb (Front.Math_min b a t) b = true ∧
       PrimFloat.leb (Front.Math_min b a t) a = true ∧
       PrimFloat.leb (Front.Math_min b a t) t = true) ∧
  (∀ i, i < length acts →
     Front.cell (Front.travel_time body) i i = Some 0%float).
Proof.
  intros H. apply handleCalculate_Posted in H as [_ H].
  apply buildRequestBody_Some in H as (HB & HU & HT & HC & _).
  split.
  - intros i j Hi Hj Hne.
    destruct (combinedMatrix_cell _ _ _ _ _ _ _ HC Hi Hj Hne)
      as (b & a & t & Hb & Ha & Ht & Hc).
    exists b, a, t. repeat (split; [done|]).
    destruct (modeMatrix_cell _ _ _ _ _ HB Hi Hj Hne)
      as (ai & aj & b' & Hai & Haj & Hb' & Hcb).
    destruct (modeMatrix_cell _ _ _ _ _ HU Hi Hj Hne)
      as (ai1 & aj1 & a' & ? & ? & Ha' & Hca).
    destruct (modeMatrix_cell _ _ _ _ _ HT Hi Hj Hne)
      as (ai2 & aj2 & t' & ? & ? & Ht' & Hct).
    simplify_eq.
    destruct (Math_min_is_auto _ _ _ _ _ Hcb Hca Hct) as (-> & Hab & Haa & Hat).
    auto.
  - intros i Hi. by eapply combinedMatrix_diag.
Qed.

Lemma combined_matrix_is_minimum_witness :
  ∃ body,
    Front.handleCalculate (λ _, 20%float) Front.exampleActivities
      "bicicleta" "20" "0.25" = Front.Posted body ∧
    ∀ i, i < length Front.exampleActivities →
      Front.cell (Front.travel_time body) i i = Some 0%float.
Proof.
  eexists. split.
  - vm_compute. reflexivity.
  - apply (combined_matrix_is_minimum (λ _, 20%float) Front.exampleActivities
             "bicicleta" "20" "0.25").
    vm_compute. reflexivity.
Defined.

(** The combined matrix of a request is its car matrix (shared by the claims
    on symmetry and on the car-only construction). *)
Lemma combined_eq_auto parseFloat acts pt tm al body :
  Front.buildRequestBody parseFloat acts pt tm al = Some body →
  Front.travel_time body = Front.travel_time_auto body.
Proof.
  intros H. apply buildRequestBody_Some in H as (HB & HU & HT & HC & _).
  destruct (fill2_square _ _ _ HC) as [HlC HrC].
  destruct (modeMatrix_square _ _ _ HU) as [HlU HrU].
  apply matrix_ext with (length acts); [done..|].
  intros i j Hi Hj. by eapply combined_cell_auto.
Qed.

(** C3: in a request built by [handleCalculate] from n activities, each of
    the four travel matrices (combined, bicycle, car, public transport) is
    square of dimension n, has 0 on its diagonal and is symmetric; the
    activity list that is sent has n entries as well. *)
Theorem request_matrices_square_zero_diagonal_symmetric
    parseFloat acts pt tm al body :
  Front.handleCalculate parseFloat acts pt tm al = Front.Posted body →
  length (Front.activities body) = length acts ∧
  ∀ M, M ∈ [ Front.travel_time body; Front.travel_time_bicicleta body;
             Front.travel_time_auto body;
             Front.travel_time_transporte_publico body ] →
    length M = length acts ∧
    Forall (λ row, length row = length acts) M ∧
    (∀ i, i < length acts → Front.cell M i i = Some 0%float) ∧
    (∀ i j, Front.cell M i j = Front.cell M j i).
Proof.
  intros H. apply handleCalculate_Posted in H as [_ H].
  pose proof (combined_eq_auto _ _ _ _ _ _ H) as Heq.
  apply buildRequestBody_Some in H as (HB & HU & HT & HC & Hacts).
  split.
  { rewrite Hacts. unfold Front.reindexedActivities. apply length_imap. }
  assert (∀ m M, Front.modeMatrix acts m = Some M →
    length M = length acts ∧
    Forall (λ row, length row = length acts) M ∧
    (∀ i, i < length acts → Front.cell M i i = Some 0%float) ∧
    (∀ i j, Front.cell M i j = Front.cell M j i)) as Hmode.
  { intros m M HM. destruct (modeMatrix_square _ _ _ HM) as [? ?].
    repeat split; [done..| |].
    - intros i Hi. by eapply modeMatrix_diag.
    - intros i j. by eapply modeMatrix_sym. }
  intros M HM. rewrite Heq in HM.
  repeat (apply elem_of_cons in HM as [->|HM]); eauto.
  by apply elem_of_nil in HM.
Qed.

Lemma request_matrices_square_zero_diagonal_symmetric_witness :
  ∃ body,
    Front.handleCalculate (λ _, 20%float) Front.exampleActivities
      "auto" "20" "0.25" = Front.Posted body ∧
    length (Front.activities body) = 10.
Proof.
  eexists. split.
  - vm_compute. reflexivity.
  - apply (request_matrices_square_zero_diagonal_symmetric
             (λ _, 20%float) Front.exampleActivities "auto" "20" "0.25").
    vm_compute. reflexivity.
Defined.

(** C10: in every request built by [handleCalculate] the combined matrix is,
    entry by entry, the car matrix: the minimum over the three modes is the
    car's time on every pair of zones, and both are 0 on the diagonal and
    between activities of one zone.  The min-of-three construction therefore
    builds the very matrix the car-only construction builds. *)
Theorem combined_matrix_is_auto_matrix parseFloat acts pt tm al body :
  Front.handleCalculate parseFloat acts pt tm al = Front.Posted body →
  Front.travel_time body = Front.travel_time_auto body ∧
  Front.modeMatrix acts "auto" = Some (Front.travel_time body) ∧
  ∀ i j, Front.cell (Front.travel_time body) i j
         = Front.cell (Front.travel_time_auto body) i j.
Proof.
  intros H. apply handleCalculate_Posted in H as [_ H].
  pose proof (combined_eq_auto _ _ _ _ _ _ H) as Heq.
  apply buildRequestBody_Some in H as (_ & HU & _).
  rewrite Heq. done.
Qed.

Lemma combined_matrix_is_auto_matrix_witness :
  ∃ body,
    Front.handleCalculate (λ _, 20%float) Front.exampleActivities
      "transporte_publico" "20" "0.25" = Front.Posted body ∧
    Front.travel_time body = Front.travel_time_auto body.
Proof.
  eexists. split.
  - vm_compute. reflexivity.
  - apply (combined_matrix_is_auto_matrix (λ _, 20%float)
             Front.exampleActivities "transporte_publico" "20" "0.25").
    vm_compute. reflexivity.
Defined.

(** C4: the identifiers of the activity list are not kept apart by the two
    handlers.  Adding twice, deleting the first activity and adding once more
    leaves two activities with identifier 1, and a click on the delete button
    of either then removes both; the request built from that list still
    carries the distinct identifiers 0 and 1. *)
Theorem add_after_delete_duplicates_id parseFloat :
  let events := [ Front.AddActivity gimnasio_form; Front.AddActivity gimnasio_form;
                  Front.DeleteActivity 0; Front.AddActivity gimnasio_form ] in
  Front.id <$> Front.run_events parseFloat events = [1; 1] ∧
  ¬ NoDup (Front.id <$> Front.run_events parseFloat events) ∧
  Front.run_events parseFloat (events ++ [Front.DeleteActivity 1]) = [] ∧
  Front.r_id <$> Front.reindexedActivities (Front.run_events parseFloat events)
    = [0; 1].
Proof.
  repeat split; try reflexivity.
  intros Hnd. apply NoDup_cons in Hnd as [Hin _]. apply Hin. left.
Qed.

(* ===================================================================== *)
(** * Facts about the engine                                              *)
(* ===================================================================== *)

Section EngineFacts.
Import Engine.
Local Open Scope Q_scope.
Local Open Scope list_scope.

(** ** Problem Encoder *)

Lemma check_activity_None a :
  check_activity a = None ↔ ¬ invalid_activity a.
Proof.
  unfold check_activity, invalid_activity.
  destruct (Qle_bool (close_time a) (open_time a)) eqn:H1.
  { apply Qle_bool_iff in H1. split; [done|]. intros H. destruct H. auto. }
  destruct (Qle_bool (duration a) 0) eqn:H2.
  { apply Qle_bool_iff in H2. split; [done|]. intros H. destruct H. auto. }
  destruct (Qle_bool (duration a) (close_time a - open_time a)) eqn:H3; simpl.
  - apply Qle_bool_iff in H3. split; [|done]. intros _ [H|[H|H]].
    + apply Qle_bool_iff in H. congruence.
    + apply Qle_bool_iff in H. congruence.
    + lra.
  - split; [done|]. intros H. destruct H. right. right.
    apply Qnot_le_lt. intros Hle. apply Qle_bool_iff in Hle. congruence.
Qed.

Lemma check_activity_Some a v :
  check_activity a = Some v → violates_activity a v.
Proof.
  unfold check_activity.
  destruct (Qle_bool (close_time a) (open_time a)) eqn:H1.
  { intros [= <-]. by apply Qle_bool_iff. }
  destruct (Qle_bool (duration a) 0) eqn:H2.
  { intros [= <-]. by apply Qle_bool_iff. }
  destruct (Qle_bool (duration a) (close_time a - open_time a)) eqn:H3;
    simpl; [done|].
  intros [= <-]. simpl. apply Qnot_le_lt. intros Hle.
  apply Qle_bool_iff in Hle. congruence.
Qed.

Lemma check_config_None c : check_config c = None ↔ ¬ invalid_config c.
Proof.
  unfold check_config, invalid_config.
  destruct (Qle_bool (time_budget c) 0) eqn:H1.
  { apply Qle_bool_iff in H1. split; [done|]. intros H. destruct H. auto. }
  destruct (Qle_bool 0 (weight c)) eqn:H2; simpl.
  - apply Qle_bool_iff in H2. split; [|done]. intros _ [H|H]; [|lra].
    apply Qle_bool_iff in H. congruence.
  - split; [done|]. intros H. destruct H. right.
    apply Qnot_le_lt. intros Hle. apply Qle_bool_iff in Hle. congruence.
Qed.

Lemma check_config_Some c v : check_config c = Some v → violates_config c v.
Proof.
  unfold check_config.
  destruct (Qle_bool (time_budget c) 0) eqn:H1.
  { intros [= <-]. by apply Qle_bool_iff. }
  destruct (Qle_bool 0 (weight c)) eqn:H2; simpl; [done|].
  intros [= <-]. simpl. apply Qnot_le_lt. intros Hle.
  apply Qle_bool_iff in Hle. congruence.
Qed.

Lemma first_invalid_None acts :
  first_invalid acts = None ↔ Forall (λ a, ¬ invalid_activity a) acts.
Proof.
  induction acts as [|a acts IH]; simpl.
  - split; [constructor|done].
  - destruct (check_activity a) as [v|] eqn:Hc.
    + split; [done|]. intros H. apply Forall_cons in H as [H _].
      apply check_activity_None in H. congruence.
    + rewrite IH. rewrite Forall_cons. apply check_activity_None in Hc. tauto.
Qed.

Lemma first_invalid_Some acts e :
  first_invalid acts = Some e →
  ∃ a v, a ∈ acts ∧ e = InvalidActivity (id a) v ∧ violates_activity a v.
Proof.
  induction acts as [|a acts IH]; simpl; [done|].
  destruct (check_activity a) as [v|] eqn:Hc.
  - intros [= <-]. exists a, v. split; [left|]. split; [done|].
    by apply check_activity_Some.
  - intros H. destruct (IH H) as (b & v & Hb & He & Hv).
    exists b, v. split; [by right|done].
Qed.

(** When every activity fits its window, nothing is filtered out. *)
Lemma kept_all acts :
  Forall (λ a, ¬ invalid_activity a) acts →
  kept acts = imap pair acts.
Proof.
  intros Hall. unfold kept.
  assert (Forall (λ ia : nat * Activity, fits_window ia.2) (imap pair acts)) as HF.
  { apply Forall_forall. intros [i a] Hin.
    apply list_elem_of_lookup in Hin as [k Hk].
    rewrite list_lookup_imap in Hk.
    destruct (acts !! k) as [b|] eqn:Hb; simpl in Hk; [|done].
    injection Hk as <- <-. simpl.
    rewrite Forall_forall in Hall.
    assert (¬ invalid_activity b) as Hnb.
    { apply Hall, list_elem_of_lookup; eauto. }
    unfold fits_window. apply Is_true_true, Qle_bool_iff.
    unfold invalid_activity in Hnb.
    apply Qnot_lt_le. tauto. }
  induction HF as [|x l Hx HF IH]; [done|].
  rewrite filter_cons_True by done. by rewrite IH.
Qed.

Lemma imap_pair_snd {A} (l : list A) : (imap pair l).*2 = l.
Proof.
  apply list_eq. intros i.
  rewrite list_lookup_fmap, list_lookup_imap. by destruct (l !! i).
Qed.

Lemma imap_pair_fst {A} (l : list A) : (imap pair l).*1 = seq 0 (length l).
Proof.
  apply list_eq. intros i.
  rewrite list_lookup_fmap, list_lookup_imap.
  destruct (l !! i) as [a|] eqn:Ha; simpl.
  - symmetry. apply lookup_seq_lt. by eapply lookup_lt_Some.
  - symmetry. apply lookup_seq_ge. by apply lookup_ge_None.
Qed.

Lemma entry_reindex_seq m n i j :
  (i < n)%nat → (j < n)%nat → entry (reindex (seq 0 n) m) i j = entry m i j.
Proof.
  intros Hi Hj. unfold reindex, entry at 1.
  rewrite list_lookup_fmap, (lookup_seq_lt 0 n i Hi). simpl.
  rewrite list_lookup_fmap, (lookup_seq_lt 0 n j Hj). done.
Qed.

Lemma encode_inl r e : encode r = inl e → invalid_request r ∧ identifies r e.
Proof.
  unfold encode, invalid_request.
  destruct (first_invalid (activities r)) as [e'|] eqn:Hf.
  - intros [= <-]. apply first_invalid_Some in Hf as (a & v & Ha & -> & Hv).
    split; [|simpl; eauto]. left. exists a. split; [done|].
    unfold invalid_activity. destruct v; simpl in Hv; tauto.
  - destruct (check_config (config r)) as [v|] eqn:Hc; [|done].
    intros [= <-]. apply check_config_Some in Hc. split; [|done].
    right. unfold invalid_config. destruct v; simpl in Hc; tauto.
Qed.

Lemma encode_inr r P :
  encode r = inr P →
  ¬ invalid_request r ∧ P = instance r ∧
  p_activities P = activities r ∧ p_config P = config r ∧
  ∀ i j, (i < length (activities r))%nat → (j < length (activities r))%nat →
    entry (p_travel P) i j = entry (combined r) i j ∧
    entry (p_exposure P) i j = entry (discouraged r) i j.
Proof.
  unfold encode, invalid_request.
  destruct (first_invalid (activities r)) as [e'|] eqn:Hf; [done|].
  destruct (check_config (config r)) as [v|] eqn:Hc; [done|].
  intros [= <-]. apply first_invalid_None in Hf. apply check_config_None in Hc.
  split.
  { intros [(a & Ha & Hbad)|Hbad]; [|done].
    rewrite Forall_forall in Hf. by apply (Hf a). }
  split; [done|]. unfold instance. simpl.
  rewrite (kept_all _ Hf), imap_pair_snd, imap_pair_fst.
  repeat split; auto using entry_reindex_seq.
Qed.

(** ** Sums, legs and the timeline of a route *)

Lemma Qsum_app l k : Qsum (l ++ k) == Qsum l + Qsum k.
Proof.
  induction l as [|x l IH]; simpl; [lra|]. rewrite IH. lra.
Qed.

Lemma legs_snoc m r q :
  legs m (r ++ [q])
  = legs m r ++ match last r with Some p => [entry m p q] | None => [] end.
Proof.
  induction r as [|x r IH]; [done|].
  destruct r as [|y r]; [done|].
  change (legs m ((x :: y :: r) ++ [q]))
    with (entry m x y :: legs m ((y :: r) ++ [q])).
  rewrite IH. done.
Qed.

Lemma last_or_None r : last_or None r = last r.
Proof. unfold last_or. by destruct (last r). Qed.

Lemma last_or_cons p x r : last_or p (x :: r) = last_or (Some x) r.
Proof. unfold last_or. rewrite last_cons. by destruct (last r). Qed.

Section Timeline.
Variable P : Problem.

Lemma clock_snoc p t r q :
  clock P p t (r ++ [q])
  = Qmax (clock P p t r + travel P (last_or p r) q)
         (from_option open_time 0 (p_activities P !! q))
    + from_option duration 0 (p_activities P !! q).
Proof.
  revert p t. induction r as [|x r IH]; intros p t; [done|].
  simpl. rewrite IH. by rewrite last_or_cons.
Qed.

Lemma replay_snoc p t r q :
  replay P p t (r ++ [q])
  = replay P p t r ++ replay P (last_or p r) (clock P p t r) [q].
Proof.
  revert p t. induction r as [|x r IH]; intros p t; [done|].
  simpl. rewrite IH. by rewrite last_or_cons.
Qed.

Lemma replay_wait_nonneg p t r : Forall (λ v, 0 <= wait v) (replay P p t r).
Proof.
  revert p t. induction r as [|q r IH]; intros p t; simpl; constructor; [|done].
  unfold wait. simpl.
  pose proof (Q.le_max_l (t + travel P p q)
                (from_option open_time 0 (p_activities P !! q))). lra.
Qed.

(** The clock is the start time plus travel, durations and waits. *)
Lemma clock_decompose p t r :
  clock P p t r
  == t + Qsum (legs (p_travel P) (from_previous p r))
       + Qsum (duration_at P <$> r) + Qsum (wait <$> replay P p t r).
Proof.
  revert p t. induction r as [|q r IH]; intros p t.
  - destruct p; simpl; lra.
  - simpl clock. rewrite IH. unfold fmap. simpl.
    unfold wait at 2. simpl. unfold duration_at at 2.
    destruct p as [x|]; simpl; lra.
Qed.

End Timeline.

(** ** Legal schedules *)

Section Legal.
Variable P : Problem.

Lemma extend_Some s q s' :
  extend P s q = Some s' →
  ∃ a, p_activities P !! q = Some a ∧
    elapsed s' = Qmax (elapsed s + travel P (last (route s)) q) (open_time a)
                 + duration a ∧
    elapsed s' <= close_time a ∧
    elapsed s' <= time_budget (p_config P) ∧
    route s' = route s ++ [q] ∧
    visited s' = {[ q ]} ∪ visited s ∧
    cum_value s' = cum_value s + value a ∧
    cum_exposure s' = cum_exposure s + exposure P (last (route s)) q.
Proof.
  unfold extend. intros H.
  destruct (p_activities P !! q) as [a|]; simpl in H; [|done].
  destruct (Qle_bool _ (close_time a)) eqn:H1; simpl in H; [|done].
  destruct (Qle_bool _ (time_budget _)) eqn:H2; simpl in H; [|done].
  injection H as <-. simpl.
  apply Qle_bool_iff in H1. apply Qle_bool_iff in H2.
  exists a. done.
Qed.

Lemma legal_inv s : legal P s → schedule_inv P s.
Proof.
  induction 1 as [|s q s' Hs IH Hq Hext].
  - unfold schedule_inv. simpl.
    repeat split; try done; try constructor; intros Hq; by inversion Hq.
  - destruct IH as (Hvis & Hnd & Hpos & Hel & Hwin & Hbud & Hval & Hexp).
    apply extend_Some in Hext
      as (a & Ha & Hfin & Hclose & Hbudget & Hroute & Hvisited & Hv & He).
    unfold schedule_inv. rewrite Hroute.
    assert (elapsed s' = clock P None 0 (route s ++ [q])) as Hclock.
    { rewrite clock_snoc, last_or_None, Ha, <- Hel. done. }
    repeat split.
    + rewrite Hvisited. intros Hin. apply elem_of_union in Hin as [Hin|Hin].
      * apply elem_of_singleton in Hin as ->. apply elem_of_app. right. left.
      * apply elem_of_app. left. by apply Hvis.
    + intros Hin. rewrite Hvisited. apply elem_of_app in Hin as [Hin|Hin].
      * apply elem_of_union. right. by apply Hvis.
      * apply elem_of_union. left. apply list_elem_of_singleton in Hin as ->.
        by apply elem_of_singleton.
    + apply NoDup_app. split; [done|]. split; [|apply NoDup_singleton].
      intros y Hy Hyq. apply list_elem_of_singleton in Hyq as ->.
      apply Hq. by apply Hvis.
    + apply Forall_app. split; [done|]. constructor; [by rewrite Ha|constructor].
    + done.
    + unfold timeline. rewrite replay_snoc. apply Forall_app. split; [done|].
      rewrite last_or_None, <- Hel. cbn [replay]. rewrite Ha.
      constructor; [|constructor].
      exists a. simpl. split; [done|].
      rewrite Hfin in Hclose.
      pose proof (Q.le_max_r (elapsed s + travel P (last (route s)) q)
                    (open_time a)).
      split; [done|lra].
    + done.
    + assert (Qsum (value_at P <$> [q]) == value a) as Hq1.
      { simpl. unfold value_at. rewrite Ha. simpl. lra. }
      rewrite Hv, fmap_app, Qsum_app, Hval, Hq1. lra.
    + rewrite He, legs_snoc, Qsum_app, Hexp. unfold exposure.
      destruct (last (route s)); simpl; lra.
Qed.

Lemma legal_feasible s :
  0 <= time_budget (p_config P) → legal P s → feasible P (route s).
Proof.
  intros Hb Hs. destruct (legal_inv s Hs) as (_ & Hnd & _ & Hel & Hwin & Hbud & _).
  repeat split; [done..|].
  destruct (decide (route s = [])) as [Hr|Hr].
  - by rewrite Hr.
  - rewrite <- Hel. by apply Hbud.
Qed.

End Legal.

(** ** The search loop *)

Section SearchLoop.
Variable P : Problem.

Lemma expand_legal s : legal P s → Forall (legal P) (expand P s).
Proof.
  intros Hs. apply Forall_forall. intros c Hc.
  apply list_elem_of_omap in Hc as (q & Hq & Hext).
  apply list_elem_of_filter in Hq as [Hq _].
  by eapply legal_extend.
Qed.

Lemma push_Forall (Φ : Schedule → Prop) s f :
  Φ s → Forall Φ f → Forall Φ (push P s f).
Proof.
  intros Hs Hf. induction Hf as [|h t Hh Ht IH]; simpl.
  - by constructor.
  - destruct (before P s h); repeat constructor; done.
Qed.

Lemma foldl_push_Forall (Φ : Schedule → Prop) cs f :
  Forall Φ cs → Forall Φ f → Forall Φ (foldl (λ f c, push P c f) f cs).
Proof.
  intros Hcs. revert f. induction Hcs as [|c cs Hc Hcs IH]; intros f Hf; [done|].
  simpl. apply IH. by apply push_Forall.
Qed.

Lemma drop_pruned_Forall (Φ : Schedule → Prop) best f :
  Forall Φ f → Forall Φ (drop_pruned P best f).
Proof.
  induction 1 as [|h t Hh Ht IH]; simpl; [constructor|].
  destruct (Qle_bool (bound P h) (objective P best)); [done|by constructor].
Qed.

Lemma foldl_pick_Forall (Φ : Schedule → Prop) best cs :
  Φ best → Forall Φ cs → Φ (foldl (pick P) best cs).
Proof.
  intros Hb Hcs. revert best Hb.
  induction Hcs as [|c cs Hc Hcs IH]; intros best Hb; [done|].
  simpl. apply IH. unfold pick. by destruct (beats P c best).
Qed.

(** Every predicate that holds at the start and is kept by expansion holds
    of the schedule the search returns. *)
Lemma search_preserves (Φ : Schedule → Prop) limit f best :
  (∀ s, Φ s → Forall Φ (expand P s)) →
  Forall Φ f → Φ best → Φ (search P limit f best).
Proof.
  intros Hexp. revert f best.
  induction limit as [|k IH]; intros f best Hf Hb; [done|].
  simpl. pose proof (drop_pruned_Forall Φ best f Hf) as Hd.
  destruct (drop_pruned P best f) as [|s rest]; [done|].
  apply Forall_cons in Hd as [Hs Hrest].
  apply IH.
  - apply foldl_push_Forall; auto.
  - apply foldl_pick_Forall; auto.
Qed.

Lemma run_search_legal limit : legal P (run_search P limit).
Proof.
  unfold run_search. apply search_preserves.
  - apply expand_legal.
  - repeat constructor.
  - constructor.
Qed.

Lemma pick_objective best c : objective P best <= objective P (pick P best c).
Proof.
  unfold pick, beats.
  destruct (objective P c ?= objective P best) eqn:Hcmp; try lra.
  - apply Qeq_alt in Hcmp.
    destruct (elapsed c ?= elapsed best); try lra.
    destruct (lex_lt _ _); lra.
  - apply Qgt_alt in Hcmp. lra.
Qed.

Lemma foldl_pick_objective best cs :
  objective P best <= objective P (foldl (pick P) best cs).
Proof.
  revert best. induction cs as [|c cs IH]; intros best; simpl; [lra|].
  pose proof (pick_objective best c). pose proof (IH (pick P best c)). lra.
Qed.

Lemma search_objective limit f best :
  objective P best <= objective P (search P limit f best).
Proof.
  revert f best. induction limit as [|k IH]; intros f best; simpl; [lra|].
  destruct (drop_pruned P best f) as [|s rest]; [lra|].
  pose proof (foldl_pick_objective best (expand P s)).
  pose proof (IH (foldl (λ f c, push P c f) rest (expand P s))
                 (foldl (pick P) best (expand P s))). lra.
Qed.

Lemma search_nil limit best : search P limit [] best = best.
Proof. by destruct limit. Qed.

(** The evaluator's objective is the one the search compares. *)
Lemma evaluate_objective s :
  legal P s → m_objective (evaluate P s) == objective P s.
Proof.
  intros Hs. destruct (legal_inv P s Hs) as (_ & _ & _ & _ & _ & _ & Hv & He).
  unfold evaluate, objective. simpl. rewrite <- Hv, <- He. lra.
Qed.

End SearchLoop.

(** ** Identifiers along a route *)

Lemma ids_of_NoDup P s :
  NoDup (id <$> p_activities P) → NoDup (route s) →
  Forall (λ q, is_Some (p_activities P !! q)) (route s) →
  NoDup (ids_of P s) ∧ length (ids_of P s) = length (route s).
Proof.
  intros Hids. unfold ids_of.
  induction (route s) as [|q r IH]; intros Hnd Hpos; simpl.
  { split; [constructor|done]. }
  apply NoDup_cons in Hnd as [Hq Hnd].
  apply Forall_cons in Hpos as [[a Ha] Hpos].
  destruct (IH Hnd Hpos) as [IH1 IH2].
  rewrite Ha. simpl. split; [|by f_equal].
  constructor; [|done].
  intros Hin. apply list_elem_of_omap in Hin as (q' & Hq' & Hid).
  destruct (p_activities P !! q') as [a'|] eqn:Ha'; simpl in Hid; [|done].
  injection Hid as Hid.
  assert (q = q') as ->; [|done].
  eapply NoDup_lookup; [exact Hids| |].
  - rewrite list_lookup_fmap, Ha. done.
  - rewrite list_lookup_fmap, Ha'. simpl. by rewrite Hid.
Qed.

(** ** When nothing can be scheduled *)

Lemma omap_all_None {A B} (f : A → option B) l :
  (∀ x, f x = None) → omap f l = [].
Proof. intros Hf. induction l as [|x l IH]; simpl; [done|]. by rewrite Hf. Qed.

Lemma run_search_nothing_feasible P limit :
  0 <= time_budget (p_config P) →
  (∀ r, r ≠ [] → ¬ feasible P r) →
  run_search P limit = empty_schedule.
Proof.
  intros Hb Hnone.
  assert (expand P empty_schedule = []) as Hexp.
  { unfold expand. apply omap_all_None. intros q.
    destruct (extend P empty_schedule q) as [c|] eqn:Hc; [|done].
    exfalso.
    assert (legal P c) as Hl.
    { eapply legal_extend; [apply legal_empty| |exact Hc]. simpl. set_solver. }
    apply (Hnone (route c)).
    - apply extend_Some in Hc as (_ & _ & _ & _ & _ & -> & _). done.
    - by apply legal_feasible. }
  unfold run_search. destruct limit as [|k]; [done|].
  simpl. destruct (Qle_bool _ _); [done|].
  rewrite Hexp. simpl. apply search_nil.
Qed.

Lemma encode_inr_budget r P : encode r = inr P → 0 < time_budget (p_config P).
Proof.
  intros He. apply encode_inr in He as (Hok & _ & _ & -> & _).
  apply Qnot_le_lt. intros Hle. apply Hok. right. by left.
Qed.

(** ** Scenario C under a budget of 5 hours *)

Lemma clock_ge P p t r :
  (∀ i j, 0 <= entry (p_travel P) i j) → (∀ q, 0 <= duration_at P q) →
  t <= clock P p t r.
Proof.
  intros Ht Hd. revert p t. induction r as [|q r IH]; intros p t; simpl; [lra|].
  pose proof (IH (Some q) (Qmax (t + travel P p q)
                (from_option open_time 0 (p_activities P !! q))
              + from_option duration 0 (p_activities P !! q))).
  pose proof (Q.le_max_l (t + travel P p q)
                (from_option open_time 0 (p_activities P !! q))).
  pose proof (Hd q) as Hq. unfold duration_at in Hq.
  assert (0 <= travel P p q) by (destruct p; simpl; [apply Ht|lra]).
  lra.
Qed.

Lemma scenarioC_5_nothing_feasible route :
  route ≠ [] → ¬ feasible (instance (scenarioC 5)) route.
Proof.
  intros Hne (Hnd & Hwin & Hclock).
  destruct route as [|q rest]; [done|].
  set (P := instance (scenarioC 5)) in *.
  assert (p_activities P = scenarioC_activities) as Hacts by reflexivity.
  assert (∀ i j, 0 <= entry (p_travel P) i j) as Htravel.
  { intros i j. destruct i as [|[|i]]; destruct j as [|[|j]]; by vm_compute. }
  assert (∀ q, 0 <= duration_at P q) as Hdur.
  { intros k. destruct k as [|[|k]]; by vm_compute. }
  unfold timeline in Hwin. cbn [replay] in Hwin.
  apply Forall_cons in Hwin as [(a & Ha & _) _]. cbn [who] in Ha.
  cbn [clock] in Hclock.
  pose proof (clock_ge P (Some q)
    (Qmax (0 + travel P None q) (from_option open_time 0 (p_activities P !! q))
     + from_option duration 0 (p_activities P !! q)) rest Htravel Hdur) as Hge.
  assert (9 <= Qmax (0 + travel P None q)
                 (from_option open_time 0 (p_activities P !! q))
               + from_option duration 0 (p_activities P !! q)) as H9.
  { rewrite Hacts in *. destruct q as [|[|q]]; [by vm_compute..|done]. }
  assert (time_budget (p_config P) == 5) as Hb by reflexivity.
  lra.
Qed.

Lemma optimize_scenarioC_5 limit :
  optimize limit (scenarioC 5) = inr zero_response.
Proof.
  unfold optimize.
  assert (encode (scenarioC 5) = inr (instance (scenarioC 5))) as ->
    by reflexivity.
  rewrite run_search_nothing_feasible.
  - reflexivity.
  - by vm_compute.
  - apply scenarioC_5_nothing_feasible.
Qed.

(** ** Two runs on one input

    The engine is a function of the request, so two runs on one and the same
    request cannot differ; what has to be shown is that the run does not
    depend on how the numbers of the request are spelled. *)

Lemma Qsum_same l k : Forall2 Qeq l k → Qsum l == Qsum k.
Proof. induction 1 as [|x y l k Hxy _ IH]; simpl; [lra|]. rewrite Hxy, IH. lra. Qed.

Lemma entry_same m n : same_matrix m n → same_entries m n.
Proof.
  intros Hmn i j. unfold entry.
  pose proof (proj1 (Forall2_lookup _ _ _) Hmn i) as Hrow.
  destruct Hrow as [r1 r2 Hr|]; simpl; [|lra].
  pose proof (proj1 (Forall2_lookup _ _ _) Hr j) as Hcell.
  destruct Hcell; simpl; [done|lra].
Qed.

Lemma entry_reindex positions m i j :
  entry (reindex positions m) i j
  = default 0 (a ← positions !! i; b ← positions !! j; Some (entry m a b)).
Proof.
  unfold reindex, entry at 1. rewrite list_lookup_fmap.
  destruct (positions !! i) as [a|]; simpl; [|done].
  rewrite list_lookup_fmap. by destruct (positions !! j).
Qed.

Lemma reindex_same positions m n :
  same_entries m n → same_entries (reindex positions m) (reindex positions n).
Proof.
  intros Hmn i j. rewrite !entry_reindex.
  destruct (positions !! i) as [a|]; simpl; [|lra].
  destruct (positions !! j) as [b|]; simpl; [apply Hmn|lra].
Qed.

(** A request says the same as itself, so what holds of two requests that
    say the same holds of two runs on one request. *)
Lemma same_request_refl r : same_request r r.
Proof.
  assert (∀ m, same_matrix m m) as Hm.
  { intros m. apply Forall_Forall2_diag, Forall_forall. intros row _.
    apply Forall_Forall2_diag, Forall_forall. intros q _. reflexivity. }
  repeat split; try reflexivity; try apply Hm.
  apply Forall_Forall2_diag, Forall_forall. intros a _.
  repeat split; reflexivity.
Qed.

(** *** The encoder on two spellings of one request *)

Lemma Qle_bool_same a b c d : a == b → c == d → Qle_bool a c = Qle_bool b d.
Proof. intros Hab Hcd. by rewrite Hab, Hcd. Qed.

Lemma Qcompare_same a b c d : a == b → c == d → (a ?= c) = (b ?= d).
Proof. intros Hab Hcd. by rewrite Hab, Hcd. Qed.

Lemma check_activity_same a b :
  same_activity a b → check_activity a = check_activity b.
Proof.
  intros (_ & _ & _ & Hd & Ho & Hc). unfold check_activity.
  rewrite (Qle_bool_same _ _ _ _ Hc Ho).
  rewrite (Qle_bool_same (duration a) (duration b) 0 0) by (done || lra).
  rewrite (Qle_bool_same (duration a) (duration b) (close_time a - open_time a)
             (close_time b - open_time b)) by (done || lra).
  done.
Qed.

Lemma fits_window_same a b : same_activity a b → fits_window a = fits_window b.
Proof.
  intros (_ & _ & _ & Hd & Ho & Hc). unfold fits_window.
  apply Qle_bool_same; [done|lra].
Qed.

Lemma first_invalid_same l k :
  Forall2 same_activity l k → first_invalid l = first_invalid k.
Proof.
  induction 1 as [|a b l k Hab _ IH]; simpl; [done|].
  rewrite (check_activity_same a b Hab), IH.
  destruct Hab as (-> & _). done.
Qed.

Lemma check_config_same c d : same_config c d → check_config c = check_config d.
Proof.
  intros (Hb & _ & Hw). unfold check_config.
  rewrite (Qle_bool_same (time_budget c) (time_budget d) 0 0) by (done || lra).
  rewrite (Qle_bool_same 0 0 (weight c) (weight d)) by (done || lra).
  done.
Qed.

Lemma kept_same l k :
  Forall2 same_activity l k →
  Forall2 (λ x y, x.1 = y.1 ∧ same_activity x.2 y.2) (kept l) (kept k).
Proof.
  intros Hlk. unfold kept. apply Forall2_filter.
  - intros [i a] [j b] [_ Hab]. simpl in *. by rewrite (fits_window_same a b).
  - apply Forall2_same_length_lookup_2.
    + rewrite !length_imap. by eapply Forall2_length.
    + intros i [i1 a] [i2 b]. rewrite !list_lookup_imap.
      destruct (l !! i) as [a'|] eqn:Ha; simpl; [|done].
      destruct (k !! i) as [b'|] eqn:Hb; simpl; [|done].
      intros [= <- <-] [= <- <-]. split; [done|].
      by eapply Forall2_lookup_lr.
Qed.

Lemma instance_same r1 r2 :
  same_request r1 r2 → same_problem (instance r1) (instance r2).
Proof.
  intros (Ha & Hc & Hd & Hcfg). pose proof (kept_same _ _ Ha) as Hk.
  assert ((kept (activities r1)).*1 = (kept (activities r2)).*1) as Hpos.
  { apply list_eq_Forall2, Forall2_fmap.
    eapply Forall2_impl; [exact Hk|]. by intros x y [? _]. }
  unfold instance, same_problem. simpl. rewrite Hpos.
  repeat split; try apply Hcfg.
  - apply Forall2_fmap. eapply Forall2_impl; [exact Hk|]. by intros x y [_ ?].
  - by apply reindex_same, entry_same.
  - by apply reindex_same, entry_same.
Qed.

(** *** The search on two spellings of one problem *)

Section SameSearch.
Variables P1 P2 : Problem.
Hypothesis HP : same_problem P1 P2.

Lemma lookup_same q :
  option_Forall2 same_activity (p_activities P1 !! q) (p_activities P2 !! q).
Proof. destruct HP as (Ha & _). by apply Forall2_lookup. Qed.

Lemma length_same : length (p_activities P1) = length (p_activities P2).
Proof. destruct HP as (Ha & _). by eapply Forall2_length. Qed.

Lemma travel_same p q : travel P1 p q == travel P2 p q.
Proof. destruct HP as (_ & Ht & _). destruct p; simpl; [apply Ht|lra]. Qed.

Lemma exposure_same p q : exposure P1 p q == exposure P2 p q.
Proof. destruct HP as (_ & _ & He & _). destruct p; simpl; [apply He|lra]. Qed.

Lemma extend_same s1 s2 q :
  same_schedule s1 s2 →
  option_Forall2 same_schedule (extend P1 s1 q) (extend P2 s2 q).
Proof.
  intros (Hr & Hv & He & Hcv & Hce). unfold extend.
  destruct (lookup_same q) as [a b (_ & _ & Hval & Hd & Ho & Hc)|]; simpl;
    [|constructor].
  rewrite Hr.
  assert (Qmax (elapsed s1 + travel P1 (last (route s2)) q) (open_time a)
            + duration a
          == Qmax (elapsed s2 + travel P2 (last (route s2)) q) (open_time b)
            + duration b) as Hfin.
  { rewrite He, (travel_same (last (route s2)) q), Ho, Hd. lra. }
  rewrite (Qle_bool_same _ _ _ _ Hfin Hc).
  destruct HP as (_ & _ & _ & Hb & _).
  rewrite (Qle_bool_same _ _ _ _ Hfin Hb).
  destruct (Qle_bool _ (close_time b) && Qle_bool _ (time_budget (p_config P2)));
    constructor.
  repeat split; simpl; [by rewrite Hv|done|by rewrite Hcv, Hval|].
  rewrite Hce, (exposure_same (last (route s2)) q). lra.
Qed.

Lemma unvisited_same s1 s2 :
  same_schedule s1 s2 → unvisited P1 s1 = unvisited P2 s2.
Proof. intros (_ & Hv & _). unfold unvisited. by rewrite Hv, length_same. Qed.

Lemma expand_same s1 s2 :
  same_schedule s1 s2 → Forall2 same_schedule (expand P1 s1) (expand P2 s2).
Proof.
  intros Hs. unfold expand. rewrite (unvisited_same s1 s2 Hs).
  induction (unvisited P2 s2) as [|q l IH]; simpl; [constructor|].
  destruct (extend_same s1 s2 q Hs); [by constructor|done].
Qed.

Lemma value_at_same q : value_at P1 q == value_at P2 q.
Proof.
  unfold value_at. destruct (lookup_same q) as [a b (_ & _ & Hv & _)|]; simpl;
    [done|lra].
Qed.

Lemma objective_same s1 s2 :
  same_schedule s1 s2 → objective P1 s1 == objective P2 s2.
Proof.
  intros (_ & _ & _ & Hcv & Hce). destruct HP as (_ & _ & _ & _ & _ & Hw).
  unfold objective. rewrite Hcv, Hce, Hw. lra.
Qed.

Lemma bound_same s1 s2 : same_schedule s1 s2 → bound P1 s1 == bound P2 s2.
Proof.
  intros Hs. pose proof (unvisited_same s1 s2 Hs) as Hu.
  destruct Hs as (_ & _ & _ & Hcv & Hce). destruct HP as (_ & _ & _ & _ & _ & Hw).
  unfold bound. rewrite Hu, Hcv, Hce, Hw.
  assert (Qsum (value_at P1 <$> unvisited P2 s2)
          == Qsum (value_at P2 <$> unvisited P2 s2)) as ->; [|lra].
  apply Qsum_same, Forall2_fmap, Forall_Forall2_diag, Forall_forall.
  intros q _. apply value_at_same.
Qed.

Lemma ids_of_same s1 s2 : same_schedule s1 s2 → ids_of P1 s1 = ids_of P2 s2.
Proof.
  intros (Hr & _). unfold ids_of. rewrite Hr.
  apply list_omap_ext, Forall_Forall2_diag, Forall_forall. intros q _.
  destruct (lookup_same q) as [a b (Hid & _)|]; simpl; [|done].
  by rewrite Hid.
Qed.

Lemma before_same s1 s2 t1 t2 :
  same_schedule s1 s2 → same_schedule t1 t2 →
  before P1 s1 t1 = before P2 s2 t2.
Proof.
  intros Hs Ht. unfold before.
  rewrite (Qcompare_same _ _ _ _ (bound_same _ _ Hs) (bound_same _ _ Ht)).
  destruct Hs as (-> & _), Ht as (-> & _). done.
Qed.

Lemma beats_same s1 s2 t1 t2 :
  same_schedule s1 s2 → same_schedule t1 t2 →
  beats P1 s1 t1 = beats P2 s2 t2.
Proof.
  intros Hs Ht. unfold beats.
  rewrite (Qcompare_same _ _ _ _ (objective_same _ _ Hs) (objective_same _ _ Ht)).
  rewrite (ids_of_same _ _ Hs), (ids_of_same _ _ Ht).
  destruct Hs as (_ & _ & He1 & _), Ht as (_ & _ & He2 & _).
  by rewrite (Qcompare_same _ _ _ _ He1 He2).
Qed.

Lemma pick_same b1 b2 c1 c2 :
  same_schedule b1 b2 → same_schedule c1 c2 →
  same_schedule (pick P1 b1 c1) (pick P2 b2 c2).
Proof.
  intros Hb Hc. unfold pick. rewrite (beats_same _ _ _ _ Hc Hb).
  by destruct (beats P2 c2 b2).
Qed.

Lemma foldl_pick_same b1 b2 cs1 cs2 :
  same_schedule b1 b2 → Forall2 same_schedule cs1 cs2 →
  same_schedule (foldl (pick P1) b1 cs1) (foldl (pick P2) b2 cs2).
Proof.
  intros Hb Hcs. revert b1 b2 Hb.
  induction Hcs as [|c1 c2 cs1 cs2 Hc _ IH]; intros b1 b2 Hb; [done|].
  simpl. by apply IH, pick_same.
Qed.

Lemma push_same s1 s2 f1 f2 :
  same_schedule s1 s2 → Forall2 same_schedule f1 f2 →
  Forall2 same_schedule (push P1 s1 f1) (push P2 s2 f2).
Proof.
  intros Hs Hf. induction Hf as [|h1 h2 f1 f2 Hh Hf IH]; simpl.
  - constructor; [done|constructor].
  - rewrite (before_same _ _ _ _ Hs Hh).
    destruct (before P2 s2 h2); [constructor; [done|]|]; by constructor.
Qed.

Lemma foldl_push_same cs1 cs2 f1 f2 :
  Forall2 same_schedule cs1 cs2 → Forall2 same_schedule f1 f2 →
  Forall2 same_schedule (foldl (λ f c, push P1 c f) f1 cs1)
                        (foldl (λ f c, push P2 c f) f2 cs2).
Proof.
  intros Hcs. revert f1 f2.
  induction Hcs as [|c1 c2 cs1 cs2 Hc _ IH]; intros f1 f2 Hf; [done|].
  simpl. by apply IH, push_same.
Qed.

Lemma drop_pruned_same b1 b2 f1 f2 :
  same_schedule b1 b2 → Forall2 same_schedule f1 f2 →
  Forall2 same_schedule (drop_pruned P1 b1 f1) (drop_pruned P2 b2 f2).
Proof.
  intros Hb Hf. induction Hf as [|h1 h2 f1 f2 Hh Hf IH]; simpl; [constructor|].
  rewrite (Qle_bool_same _ _ _ _ (bound_same _ _ Hh) (objective_same _ _ Hb)).
  destruct (Qle_bool (bound P2 h2) (objective P2 b2)); [done|by constructor].
Qed.

Lemma search_same limit f1 f2 b1 b2 :
  Forall2 same_schedule f1 f2 → same_schedule b1 b2 →
  same_schedule (search P1 limit f1 b1) (search P2 limit f2 b2).
Proof.
  revert f1 f2 b1 b2.
  induction limit as [|k IH]; intros f1 f2 b1 b2 Hf Hb; [done|].
  simpl. destruct (drop_pruned_same b1 b2 f1 f2 Hb Hf) as [|s1 s2 r1 r2 Hs Hr];
    [done|].
  pose proof (expand_same s1 s2 Hs) as He.
  apply IH.
  - by apply foldl_push_same.
  - by apply foldl_pick_same.
Qed.

Lemma run_search_same limit :
  same_schedule (run_search P1 limit) (run_search P2 limit).
Proof.
  unfold run_search. apply search_same; [|done].
  constructor; [done|constructor].
Qed.

(** Written in lowest terms, the two responses are one. *)
Lemma build_response_same s1 s2 :
  same_schedule s1 s2 → build_response P1 s1 = build_response P2 s2.
Proof.
  intros Hs. destruct Hs as (Hr & _ & He & _).
  destruct HP as (_ & Ht & Hx & _ & _ & Hw).
  assert (Qsum (value_at P1 <$> route s2) == Qsum (value_at P2 <$> route s2))
    as Hval.
  { apply Qsum_same, Forall2_fmap, Forall_Forall2_diag, Forall_forall.
    intros q _. apply value_at_same. }
  assert (∀ m n r, same_entries m n → Qsum (legs m r) == Qsum (legs n r))
    as Hlegs.
  { intros m n r Hmn. induction r as [|p r IH]; [done|].
    destruct r as [|q r]; [done|].
    change (Qsum (legs m (p :: q :: r)))
      with (entry m p q + Qsum (legs m (q :: r))).
    change (Qsum (legs n (p :: q :: r)))
      with (entry n p q + Qsum (legs n (q :: r))).
    rewrite IH, (Hmn p q). lra. }
  unfold build_response, evaluate. simpl. rewrite Hr. f_equal.
  - by apply Qred_complete.
  - by apply Qred_complete, Hlegs.
  - by apply Qred_complete, Hlegs.
  - by apply Qred_complete.
  - apply Qred_complete. rewrite Hval, (Hlegs _ _ (route s2) Hx), Hw. lra.
  - apply list_omap_ext, Forall_Forall2_diag, Forall_forall. intros q _.
    destruct (lookup_same q) as [a b (_ & Hn & Hv & Hd & _)|]; simpl; [|done].
    rewrite Hn. do 2 f_equal; by apply Qred_complete.
Qed.

End SameSearch.

End EngineFacts.

(** * Specified properties of the engine *)

(** C5: the Problem Encoder fails with a Validation error exactly on the
    requests that hold an activity with close_time ≤ open_time, with
    duration ≤ 0 or with a duration above its window, or a configuration
    with time_budget ≤ 0 or weight < 0.  The error names a field that is at
    fault, and the run ends with that error, no search result being
    produced.  On every other request the encoder succeeds with the
    filtered, reindexed instance, which then holds all the activities, the
    configuration and the matrix entries of the request. *)
Theorem encoder_rejects_exactly_the_invalid limit r :
  (Engine.invalid_request r ↔ ∃ e, Engine.encode r = inl e) ∧
  (∀ e, Engine.encode r = inl e →
     Engine.identifies r e ∧ Engine.optimize limit r = inl e) ∧
  (¬ Engine.invalid_request r →
     Engine.encode r = inr (Engine.instance r) ∧
     Engine.p_activities (Engine.instance r) = Engine.activities r ∧
     Engine.p_config (Engine.instance r) = Engine.config r ∧
     ∀ i j, i < length (Engine.activities r) → j < length (Engine.activities r) →
       Engine.entry (Engine.p_travel (Engine.instance r)) i j
         = Engine.entry (Engine.combined r) i j ∧
       Engine.entry (Engine.p_exposure (Engine.instance r)) i j
         = Engine.entry (Engine.discouraged r) i j).
Proof.
  split; [|split].
  - split.
    + intros Hbad. destruct (Engine.encode r) as [e|P] eqn:He; [eauto|].
      by apply encode_inr in He as [Hok _].
    + intros [e He]. by apply encode_inl in He as [? _].
  - intros e He. split; [by apply encode_inl in He as [_ ?]|].
    unfold Engine.optimize. by rewrite He.
  - intros Hok. destruct (Engine.encode r) as [e|P] eqn:He.
    { by apply encode_inl in He as [? _]. }
    apply encode_inr in He as (_ & -> & ? & ? & ?). done.
Qed.

(** Scenario B of the specification (duration 3 in a window of 1) is
    turned away by the encoder of section 4.1. *)
Example encoder_rejects_scenarioB :
  Engine.optimize 100
    {| Engine.activities :=
         [ {| Engine.id := 0; Engine.name := "X"; Engine.value := 5;
              Engine.duration := 3; Engine.open_time := 8;
              Engine.close_time := 9 |} ]%Q;
       Engine.combined := [[0%Q]]; Engine.discouraged := [[0%Q]];
       Engine.config := {| Engine.time_budget := 5; Engine.discouraged_mode := "auto";
                            Engine.weight := 0 |} |}
  = inl (Engine.InvalidActivity 0 Engine.duration_exceeds_window).
Proof. reflexivity. Qed.

(** C6: the schedule the Search Engine returns satisfies the invariants of
    section 3.  No activity identifier occurs twice in it (identifiers being
    unique in the request); every activity starts at or after its open_time
    and at or before its close_time minus its duration; the elapsed time is
    the clock of the replayed route, which is the sum of the travel times,
    the durations and the (non-negative) waits, so waits count; and the
    elapsed time is within the time budget. *)
Theorem returned_schedule_satisfies_invariants limit r P :
  Engine.encode r = inr P →
  NoDup (Engine.id <$> Engine.activities r) →
  let s := Engine.run_search P limit in
  let visits := Engine.timeline P (Engine.route s) in
  NoDup (Engine.route s) ∧
  NoDup (Engine.ids_of P s) ∧
  length (Engine.ids_of P s) = length (Engine.route s) ∧
  Forall (Engine.in_window P) visits ∧
  Forall (λ v, (0 <= Engine.wait v)%Q) visits ∧
  Engine.elapsed s = Engine.clock P None 0 (Engine.route s) ∧
  (Engine.elapsed s
   == Engine.Qsum (Engine.legs (Engine.p_travel P) (Engine.route s))
      + Engine.Qsum (Engine.duration_at P <$> Engine.route s)
      + Engine.Qsum (Engine.wait <$> visits))%Q ∧
  (Engine.elapsed s <= Engine.time_budget (Engine.p_config P))%Q.
Proof.
  intros He Hids s visits.
  pose proof (encode_inr_budget _ _ He) as Hb.
  pose proof (run_search_legal P limit) as Hl. fold s in Hl.
  destruct (legal_inv P s Hl) as (_ & Hnd & Hpos & Hel & Hwin & _).
  destruct (legal_feasible P s) as (_ & _ & Hle); [lra|done|].
  apply encode_inr in He as (_ & _ & Hacts & _).
  rewrite <- Hacts in Hids.
  destruct (ids_of_NoDup P s Hids Hnd Hpos) as [Hi1 Hi2].
  repeat split; try done.
  - apply replay_wait_nonneg.
  - rewrite Hel. rewrite (clock_decompose P None 0 (Engine.route s)).
    simpl. unfold visits, Engine.timeline. lra.
  - by rewrite Hel.
Qed.

Lemma returned_schedule_satisfies_invariants_witness :
  NoDup (Engine.route
           (Engine.run_search (Engine.instance (scenarioC 12)) 100)).
Proof.
  apply (returned_schedule_satisfies_invariants 100 (scenarioC 12)
           (Engine.instance (scenarioC 12))).
  - vm_compute. reflexivity.
  - vm_compute. apply (bool_decide_unpack _). vm_compute. reflexivity.
Defined.

(** C7: on every well-formed input the empty schedule is feasible and has
    objective 0, and the objective that is returned is never below 0; when
    no non-empty schedule is feasible the request still succeeds, with the
    all-zero metrics and the empty route of the empty schedule. *)
Theorem objective_never_negative limit r P :
  Engine.encode r = inr P →
  Engine.feasible P [] ∧
  (Engine.m_objective (Engine.evaluate P Engine.empty_schedule) == 0)%Q ∧
  (0 <= Engine.m_objective (Engine.evaluate P (Engine.run_search P limit)))%Q ∧
  (∃ resp, Engine.optimize limit r = inr resp ∧
           (0 <= Engine.r_objective resp)%Q) ∧
  ((∀ route, route ≠ [] → ¬ Engine.feasible P route) →
   Engine.optimize limit r = inr Engine.zero_response).
Proof.
  intros He. pose proof (encode_inr_budget _ _ He) as Hb.
  pose proof (run_search_legal P limit) as Hl.
  assert (0 <= Engine.m_objective (Engine.evaluate P (Engine.run_search P limit)))%Q
    as Hobj.
  { rewrite evaluate_objective by done.
    pose proof (search_objective P limit [Engine.empty_schedule]
                  Engine.empty_schedule) as Hge.
    unfold Engine.run_search.
    assert (Engine.objective P Engine.empty_schedule == 0)%Q as H0.
    { unfold Engine.objective. simpl. lra. }
    lra. }
  split; [|split; [|split; [|split]]].
  - repeat split; [constructor|constructor|simpl; lra].
  - unfold Engine.evaluate. simpl. lra.
  - done.
  - exists (Engine.build_response P (Engine.run_search P limit)). split.
    + unfold Engine.optimize. by rewrite He.
    + simpl. by rewrite Qred_correct.
  - intros Hnone. unfold Engine.optimize. rewrite He.
    rewrite run_search_nothing_feasible by (lra || done).
    unfold Engine.build_response, Engine.zero_response. simpl.
    do 2 f_equal. apply (Qred_complete _ 0). lra.
Qed.

Lemma objective_never_negative_witness :
  Engine.optimize 100 (scenarioC 5) = inr Engine.zero_response.
Proof.
  apply (objective_never_negative 100 (scenarioC 5)
           (Engine.instance (scenarioC 5))).
  - vm_compute. reflexivity.
  - apply scenarioC_5_nothing_feasible.
Defined.





(* ===================================================================== *)
(** * Further properties of the front end                                 *)
(* ===================================================================== *)

(** ** [calculateTravelTime] on arbitrary labels *)

Lemma ZONES_lookup_None z :
  Front.ZONES !! z = None ↔ z ∉ Front.zone_options.
Proof. symmetry. apply not_elem_of_list_to_map. Qed.

Lemma TRANSPORT_TYPES_lookup_None m :
  Front.TRANSPORT_TYPES !! m = None ↔ m ∉ Front.transport_options.
Proof. symmetry. apply not_elem_of_list_to_map. Qed.




(** ** The travel times a request carries *)

(** In a mode matrix every cell, the diagonal included, is the travel time
    between the zones of the two activities. *)
Lemma modeMatrix_cell_zones acts m M i j ai aj :
  Front.modeMatrix acts m = Some M →
  acts !! i = Some ai → acts !! j = Some aj →
  ∃ v, Front.cell M i j = Some v ∧
       Front.calculateTravelTime (Front.zone ai) (Front.zone aj) m = Some v.
Proof.
  intros HM Hai Haj.
  pose proof (lookup_lt_Some _ _ _ Hai) as Hi.
  pose proof (lookup_lt_Some _ _ _ Haj) as Hj.
  destruct (decide (i = j)) as [->|Hne].
  - exists 0%float. split; [by eapply modeMatrix_diag|].
    assert (ai = aj) as -> by congruence.
    unfold Front.calculateTravelTime. by rewrite decide_True.
  - destruct (modeMatrix_cell _ _ _ _ _ HM Hi Hj Hne)
      as (ai' & aj' & v & ? & ? & Hv & Hc).
    simplify_eq. eauto.
Qed.

(** On one pair of zones: car, then public transport, then bicycle, and
    never more than two hours. *)
Lemma mode_times_ordered z1 z2 b a t :
  Front.calculateTravelTime z1 z2 "bicicleta" = Some b →
  Front.calculateTravelTime z1 z2 "auto" = Some a →
  Front.calculateTravelTime z1 z2 "transporte_publico" = Some t →
  PrimFloat.leb 0 a = true ∧ PrimFloat.leb a t = true ∧
  PrimFloat.leb t b = true ∧ PrimFloat.leb b 2 = true.
Proof.
  intros Hb Ha Ht.
  apply calculateTravelTime_Some in Hb
    as [[-> ->]|(Hne & p & q & s & Hp & Hq & Hs & ->)].
  { unfold Front.calculateTravelTime in Ha, Ht.
    rewrite decide_True in Ha, Ht by done.
    injection Ha as <-. injection Ht as <-. by vm_compute. }
  unfold Front.calculateTravelTime in Ha, Ht.
  rewrite decide_False in Ha, Ht by done.
  rewrite Hp, Hq in Ha, Ht. simpl in Ha, Ht.
  injection Ha as <-. injection Ht as <-.
  vm_compute in Hs. injection Hs as <-.
  table_cases Hp; table_cases Hq; by vm_compute.
Qed.

(** The triangle inequality of the travel times of one mode. *)
Lemma calculateTravelTime_triangle z1 z2 z3 m x y z :
  Front.calculateTravelTime z1 z3 m = Some x →
  Front.calculateTravelTime z1 z2 m = Some y →
  Front.calculateTravelTime z2 z3 m = Some z →
  PrimFloat.leb x (y + z) = true.
Proof.
  intros Hx Hy Hz.
  destruct (decide (z1 = z2)) as [->|H12].
  { unfold Front.calculateTravelTime in Hy. rewrite decide_True in Hy by done.
    injection Hy as <-. rewrite Hx in Hz. injection Hz as <-.
    apply calculateTravelTime_Some in Hx
      as [[-> ->]|(Hne & p & q & t & Hp & Hq & Ht & ->)]; [done|].
    table_cases Hp; table_cases Hq; table_cases Ht; by vm_compute. }
  destruct (decide (z2 = z3)) as [->|H23].
  { unfold Front.calculateTravelTime in Hz. rewrite decide_True in Hz by done.
    injection Hz as <-. rewrite Hx in Hy. injection Hy as <-.
    apply calculateTravelTime_Some in Hx
      as [[-> ->]|(Hne & p & q & t & Hp & Hq & Ht & ->)]; [done|].
    table_cases Hp; table_cases Hq; table_cases Ht; by vm_compute. }
  apply calculateTravelTime_Some in Hy
    as [[-> _]|(_ & p1 & p2 & t & Hp1 & Hp2 & Ht & ->)]; [done|].
  apply calculateTravelTime_Some in Hz
    as [[-> _]|(_ & p2' & p3 & t' & Hp2' & Hp3 & Ht' & ->)]; [done|].
  simplify_eq.
  unfold Front.calculateTravelTime in Hx.
  rewrite Hp1, Hp3, Ht in Hx. simpl in Hx.
  destruct (decide (z1 = z3)) as [->|H13]; injection Hx as <-.
  - rewrite Hp1 in Hp3. injection Hp3 as <-.
    table_cases Hp1; table_cases Hp2; table_cases Ht; by vm_compute.
  - table_cases Hp1; table_cases Hp2; table_cases Hp3; table_cases Ht;
      by vm_compute.
Qed.

Section RequestTimes.
Variable parseFloat : string → float.

(** The four matrices of a request with the mode each one is computed
    for; the combined matrix is the car's. *)
Lemma request_matrices acts pt tm al body M :
  Front.handleCalculate parseFloat acts pt tm al = Front.Posted body →
  M ∈ [ Front.travel_time body; Front.travel_time_bicicleta body;
        Front.travel_time_auto body;
        Front.travel_time_transporte_publico body ] →
  ∃ m, Front.modeMatrix acts m = Some M.
Proof.
  intros H HM. apply handleCalculate_Posted in H as [_ H].
  pose proof (combined_eq_auto _ _ _ _ _ _ H) as Heq.
  apply buildRequestBody_Some in H as (HB & HU & HT & _).
  rewrite Heq in HM.
  repeat (apply elem_of_cons in HM as [->|HM]); eauto.
  by apply elem_of_nil in HM.
Qed.

End RequestTimes.





(** X5: a travel time depends on the zones of the two activities only.  If
    the activities at (i, j) of one list are in the same zones as those at
    (i', j') of another, the two requests carry the same four times there:
    adding, deleting or reordering activities does not change the travel
    times between the others. *)
Theorem request_times_depend_on_zones_only
    parseFloat acts pt tm al body acts' pt' tm' al' body' i j i' j' :
  Front.handleCalculate parseFloat acts pt tm al = Front.Posted body →
  Front.handleCalculate parseFloat acts' pt' tm' al' = Front.Posted body' →
  i < length acts → j < length acts →
  Front.zone <$> acts !! i = Front.zone <$> acts' !! i' →
  Front.zone <$> acts !! j = Front.zone <$> acts' !! j' →
  Front.cell (Front.travel_time body) i j
    = Front.cell (Front.travel_time body') i' j' ∧
  Front.cell (Front.travel_time_bicicleta body) i j
    = Front.cell (Front.travel_time_bicicleta body') i' j' ∧
  Front.cell (Front.travel_time_auto body) i j
    = Front.cell (Front.travel_time_auto body') i' j' ∧
  Front.cell (Front.travel_time_transporte_publico body) i j
    = Front.cell (Front.travel_time_transporte_publico body') i' j'.
Proof.
  intros H H' Hi Hj Hzi Hzj.
  apply handleCalculate_Posted in H as [_ H].
  apply handleCalculate_Posted in H' as [_ H'].
  rewrite (combined_eq_auto _ _ _ _ _ _ H), (combined_eq_auto _ _ _ _ _ _ H').
  apply buildRequestBody_Some in H as (HB & HU & HT & _).
  apply buildRequestBody_Some in H' as (HB' & HU' & HT' & _).
  destruct (lookup_lt_is_Some_2 acts i Hi) as [ai Hai].
  destruct (lookup_lt_is_Some_2 acts j Hj) as [aj Haj].
  rewrite Hai in Hzi. rewrite Haj in Hzj.
  destruct (acts' !! i') as [ai'|] eqn:Hai'; [|done].
  destruct (acts' !! j') as [aj'|] eqn:Haj'; [|done].
  simpl in Hzi, Hzj. injection Hzi as Hzi. injection Hzj as Hzj.
  assert (∀ m M M', Front.modeMatrix acts m = Some M →
            Front.modeMatrix acts' m = Some M' →
            Front.cell M i j = Front.cell M' i' j') as Hmode.
  { intros m M M' HM HM'.
    destruct (modeMatrix_cell_zones _ _ _ _ _ _ _ HM Hai Haj) as (v & -> & Hv).
    destruct (modeMatrix_cell_zones _ _ _ _ _ _ _ HM' Hai' Haj')
      as (v' & -> & Hv').
    rewrite Hzi, Hzj in Hv. congruence. }
  repeat split; by eapply Hmode.
Qed.

Lemma request_times_depend_on_zones_only_witness :
  ∃ body body',
    Front.handleCalculate (λ _, 20%float) Front.exampleActivities
      "bicicleta" "20" "0.25" = Front.Posted body ∧
    Front.handleCalculate (λ _, 20%float) App.sustainabilityActivities
      "auto" "12" "1" = Front.Posted body' ∧
    Front.cell (Front.travel_time body) 1 3
      = Front.cell (Front.travel_time body') 0 4.
Proof.
  eexists _, _. split; [vm_compute; reflexivity|].
  split; [vm_compute; reflexivity|].
  eapply (request_times_depend_on_zones_only (λ _, 20%float)
            Front.exampleActivities "bicicleta" "20" "0.25" _
            App.sustainabilityActivities "auto" "12" "1" _ 1 3 0 4).
  - vm_compute. reflexivity.
  - vm_compute. reflexivity.
  - vm_compute. lia.
  - vm_compute. lia.
  - reflexivity.
  - reflexivity.
Defined.

(** ** How a click on "calculate" ends *)

Lemma Array_fill_map_None {A} n (f : nat → option A) :
  Front.Array_fill_map n f = None ↔ ∃ i, i < n ∧ f i = None.
Proof.
  unfold Front.Array_fill_map. rewrite mapM_None, Exists_exists.
  split.
  - intros (i & Hi & Hf). apply elem_of_seq in Hi. exists i. split; [lia|done].
  - intros (i & Hi & Hf). exists i. split; [|done]. apply elem_of_seq. lia.
Qed.

(** A mode matrix cannot be built exactly when some pair of positions has
    no travel time. *)
Lemma modeMatrix_None acts m :
  Front.modeMatrix acts m = None ↔
  ∃ i j ai aj, i ≠ j ∧ acts !! i = Some ai ∧ acts !! j = Some aj ∧
    Front.calculateTravelTime (Front.zone ai) (Front.zone aj) m = None.
Proof.
  unfold Front.modeMatrix. rewrite Array_fill_map_None. split.
  - intros (i & Hi & Hrow). apply Array_fill_map_None in Hrow as (j & Hj & Hc).
    destruct (decide (i = j)) as [|Hne]; [done|].
    destruct (lookup_lt_is_Some_2 acts i Hi) as [ai Hai].
    destruct (lookup_lt_is_Some_2 acts j Hj) as [aj Haj].
    rewrite Hai, Haj in Hc. simpl in Hc.
    exists i, j, ai, aj. done.
  - intros (i & j & ai & aj & Hne & Hai & Haj & Hc).
    exists i. split; [by eapply lookup_lt_Some|].
    apply Array_fill_map_None. exists j. split; [by eapply lookup_lt_Some|].
    rewrite decide_False by done. rewrite Hai, Haj. done.
Qed.


(** ** What the request takes from the list *)

Lemma Array_fill_map_ext {A} n (f g : nat → option A) :
  (∀ i, i < n → f i = g i) → Front.Array_fill_map n f = Front.Array_fill_map n g.
Proof.
  intros Hfg. unfold Front.Array_fill_map. apply Forall_mapM_ext, Forall_forall.
  intros i Hi. apply elem_of_seq in Hi. apply Hfg. lia.
Qed.

Lemma content_lookup (acts1 acts2 : list Front.Activity) (i : nat) :
  App.content <$> acts1 = App.content <$> acts2 →
  App.content <$> acts1 !! i = App.content <$> acts2 !! i.
Proof. intros H. by rewrite <- !list_lookup_fmap, H. Qed.

(** X7: the request does not depend on the identifiers the list holds.  Two
    lists with the same activities in the same order, whatever their
    identifiers, end a click on "calculate" in the same way, with the same
    request body. *)
Theorem handleCalculate_ignores_ids parseFloat acts1 acts2 pt tm al :
  App.content <$> acts1 = App.content <$> acts2 →
  Front.handleCalculate parseFloat acts1 pt tm al
  = Front.handleCalculate parseFloat acts2 pt tm al.
Proof.
  intros Hc.
  assert (length acts1 = length acts2) as Hlen.
  { by rewrite <- (length_fmap App.content acts1), Hc, length_fmap. }
  assert (∀ m, Front.modeMatrix acts1 m = Front.modeMatrix acts2 m) as Hmode.
  { intros m. unfold Front.modeMatrix. rewrite Hlen.
    apply Array_fill_map_ext. intros i _.
    apply Array_fill_map_ext. intros j _.
    destruct (decide (i = j)); [done|].
    pose proof (content_lookup _ _ i Hc) as Hi.
    pose proof (content_lookup _ _ j Hc) as Hj.
    destruct (acts1 !! i) as [a1|], (acts2 !! i) as [a2|]; try done.
    destruct (acts1 !! j) as [b1|], (acts2 !! j) as [b2|]; try done.
    simpl in *. unfold App.content in Hi, Hj. congruence. }
  assert (Front.reindexedActivities acts1 = Front.reindexedActivities acts2)
    as Hre.
  { unfold Front.reindexedActivities. apply list_eq. intros i.
    rewrite !list_lookup_imap.
    pose proof (content_lookup _ _ i Hc) as Hi.
    destruct (acts1 !! i) as [a1|], (acts2 !! i) as [a2|]; try done.
    simpl in *. unfold App.content in Hi. f_equal. f_equal; congruence. }
  unfold Front.handleCalculate, Front.buildRequestBody.
  by rewrite Hlen, !Hmode, Hre.
Qed.

Lemma handleCalculate_ignores_ids_witness :
  Front.handleCalculate (λ _, 20%float)
    (Front.run_events (λ _, 20%float)
       [ Front.AddActivity gimnasio_form; Front.AddActivity gimnasio_form;
         Front.DeleteActivity 0; Front.AddActivity gimnasio_form ])
    "auto" "20" "0.25"
  = Front.handleCalculate (λ _, 20%float)
      (Front.run_events (λ _, 20%float)
         [ Front.AddActivity gimnasio_form; Front.AddActivity gimnasio_form ])
      "auto" "20" "0.25".
Proof.
  apply (handleCalculate_ignores_ids (λ _, 20%float)). reflexivity.
Defined.



(** ** The two list handlers *)

Lemma handleDeleteActivity_absent acts i :
  i ∉ Front.id <$> acts → Front.handleDeleteActivity acts i = acts.
Proof.
  unfold Front.handleDeleteActivity. intros Hnot.
  induction acts as [|a acts IH]; [done|].
  rewrite fmap_cons, not_elem_of_cons in Hnot. destruct Hnot as [Hne Hnot].
  rewrite filter_cons_True by done. by rewrite IH.
Qed.

(** X9: deleting by identifier removes every activity that carries the
    identifier and nothing else, keeps the order of the others, changes
    nothing exactly when no activity carries the identifier, and makes the
    list shorter whenever one does (the delete button of a listed activity
    always removes something). *)
Theorem handleDeleteActivity_removes_the_id acts i :
  (∀ a, a ∈ Front.handleDeleteActivity acts i ↔ a ∈ acts ∧ Front.id a ≠ i) ∧
  Front.handleDeleteActivity acts i `sublist_of` acts ∧
  (Front.handleDeleteActivity acts i = acts ↔ i ∉ Front.id <$> acts) ∧
  (i ∈ Front.id <$> acts →
   (length (Front.handleDeleteActivity acts i) < length acts)%nat).
Proof.
  unfold Front.handleDeleteActivity. split; [|split; [|split]];
    [| | |intros Hin; apply list_elem_of_fmap in Hin as (a & -> & Ha);
          apply (length_filter_lt _ _ a); [done|]; by intros Hne].
  - intros a. rewrite list_elem_of_filter. tauto.
  - apply sublist_filter.
  - split.
    + intros Heq Hin. apply list_elem_of_fmap in Hin as (a & -> & Ha).
      rewrite <- Heq in Ha. apply list_elem_of_filter in Ha as [Hne _]. done.
    + apply handleDeleteActivity_absent.
Qed.

(** X10: deletions commute and repeat without effect: deleting two
    identifiers in either order leaves the same list, and deleting an
    identifier a second time changes nothing. *)
Theorem handleDeleteActivity_commutes acts i j :
  Front.handleDeleteActivity (Front.handleDeleteActivity acts i) j
  = Front.handleDeleteActivity (Front.handleDeleteActivity acts j) i ∧
  Front.handleDeleteActivity (Front.handleDeleteActivity acts i) i
  = Front.handleDeleteActivity acts i.
Proof.
  unfold Front.handleDeleteActivity. rewrite !list_filter_filter. split.
  - apply list_filter_iff. tauto.
  - apply list_filter_iff. tauto.
Qed.

Lemma handleAddActivity_cases parseFloat acts form :
  Front.handleAddActivity parseFloat acts form
  = if App.form_incomplete form then acts
    else (acts ++ [ {| Front.id := length acts;
                      Front.name := Front.f_name form;
                      Front.value := parseFloat (Front.f_value form);
                      Front.duration := parseFloat (Front.f_duration form);
                      Front.open_time := parseFloat (Front.f_open_time form);
                      Front.close_time := parseFloat (Front.f_close_time form);
                      Front.zone := Front.f_zone form |} ])%list.
Proof. reflexivity. Qed.

(** X11: adding an activity and then deleting it gives the list back,
    provided no activity of the list already carries the identifier the new
    one gets, which is the length of the list. *)
Theorem add_then_delete_restores parseFloat acts form :
  length acts ∉ Front.id <$> acts →
  Front.handleDeleteActivity
    (Front.handleAddActivity parseFloat acts form) (length acts) = acts.
Proof.
  intros Hfresh.
  assert (Front.handleDeleteActivity acts (length acts) = acts) as Hsame.
  { by apply handleDeleteActivity_absent. }
  rewrite handleAddActivity_cases. destruct (App.form_incomplete form); [done|].
  unfold Front.handleDeleteActivity in *. rewrite filter_app, Hsame.
  rewrite filter_cons_False by (simpl; auto). by rewrite app_nil_r.
Qed.

Lemma add_then_delete_restores_witness :
  Front.handleDeleteActivity
    (Front.handleAddActivity (λ _, 20%float) Front.exampleActivities
       gimnasio_form)
    10
  = Front.exampleActivities.
Proof.
  apply (add_then_delete_restores (λ _, 20%float) Front.exampleActivities
           gimnasio_form).
  apply (bool_decide_unpack _). vm_compute. reflexivity.
Defined.

(** ** The component as a state machine *)

Section AppFacts.
Variable parseFloat : string → float.

(** X12: a second click on "add" does nothing.  After a successful add the
    form is empty again, so the next click is turned away; after a refused
    add nothing has changed, so it is refused again.  A click adds at most
    one activity, at the end, and leaves the others as they are. *)
Theorem handleAddActivity_twice s :
  App.handleAddActivity parseFloat (App.handleAddActivity parseFloat s)
  = App.handleAddActivity parseFloat s ∧
  App.activities s `prefix_of`
    App.activities (App.handleAddActivity parseFloat s) ∧
  (length (App.activities (App.handleAddActivity parseFloat s))
   ≤ S (length (App.activities s)))%nat.
Proof.
  destruct (App.form_incomplete (App.newActivity s)) eqn:Hf.
  - assert (App.handleAddActivity parseFloat s = s) as Hs.
    { unfold App.handleAddActivity. by rewrite Hf. }
    rewrite !Hs. split; [done|]. split; [done|lia].
  - assert (App.handleAddActivity parseFloat s
            = {| App.activities :=
                   Front.handleAddActivity parseFloat (App.activities s)
                     (App.newActivity s);
                 App.showModal := false;
                 App.tmax := App.tmax s;
                 App.penalizedTransport := App.penalizedTransport s;
                 App.alpha := App.alpha s;
                 App.newActivity := App.emptyForm |}) as Hs.
    { unfold App.handleAddActivity. by rewrite Hf. }
    rewrite !Hs. simpl. rewrite handleAddActivity_cases, Hf.
    split; [done|]. split.
    + by apply prefix_app_r.
    + rewrite length_app. simpl. lia.
Qed.

Lemma step_ids_are_positions s e :
  App.is_delete e = false → App.ids_are_positions s →
  App.ids_are_positions (App.step parseFloat s e).
Proof.
  unfold App.ids_are_positions. intros He Hs.
  destruct e; try done; simpl.
  - unfold App.handleAddActivity.
    destruct (App.form_incomplete (App.newActivity s)); [done|]. simpl.
    by apply handleAddActivity_ids.
Qed.

(** X13: as long as no delete button is clicked, whatever else is done
    (adding, loading either data set, typing), the identifiers of the list
    are its positions 0, 1, 2, ..., hence pairwise different. *)
Theorem ids_are_positions_without_delete es :
  Forall (λ e, App.is_delete e = false) es →
  Front.id <$> App.activities (App.run parseFloat es)
    = seq 0 (length (App.activities (App.run parseFloat es))) ∧
  NoDup (Front.id <$> App.activities (App.run parseFloat es)).
Proof.
  intros Hes.
  assert (App.ids_are_positions (App.run parseFloat es)) as H.
  { unfold App.run. revert Hes.
    induction es as [|e es IH] using rev_ind; intros Hes; [reflexivity|].
    apply Forall_app in Hes as [Hes He]. rewrite Forall_singleton in He.
    rewrite foldl_app. simpl. apply step_ids_are_positions; [exact He|].
    by apply IH. }
  split; [done|]. rewrite H. apply NoDup_seq.
Qed.

Lemma step_zones_known s e :
  App.selectable e → App.zones_known s → App.zones_known (App.step parseFloat s e).
Proof.
  unfold App.zones_known. intros He [Hacts Hform].
  assert ("Centro" ∈ Front.zone_options) as HC
    by (apply (bool_decide_unpack _); by vm_compute).
  destruct e; simpl in *; try done.
  - unfold App.handleAddActivity.
    destruct (App.form_incomplete (App.newActivity s)) eqn:Hf; [done|].
    simpl. split; [|done]. rewrite handleAddActivity_cases, Hf.
    apply Forall_app. split; [done|]. constructor; [done|constructor].
  - split; [|done]. unfold Front.handleDeleteActivity.
    rewrite Forall_forall in Hacts. apply Forall_forall. intros a Ha.
    apply list_elem_of_filter in Ha as [_ Ha]. by apply Hacts.
  - split; [|done]. apply (bool_decide_unpack _). by vm_compute.
  - split; [|done]. apply (bool_decide_unpack _). by vm_compute.
Qed.

(** X14: whatever the user does with the buttons and inputs, the zone
    selector offering the keys of [ZONES] only, a click on "calculate"
    never throws: it sends a request, or alerts when the list is empty. *)
Theorem handleCalculate_never_throws es :
  Forall App.selectable es →
  let s := App.run parseFloat es in
  (App.activities s = [] ∧ App.handleCalculate parseFloat s = Front.Alerted) ∨
  (App.activities s ≠ [] ∧
   ∃ body, App.handleCalculate parseFloat s = Front.Posted body).
Proof.
  intros Hes s.
  assert (App.zones_known s) as [Hz _].
  { unfold s, App.run. clear s. revert Hes.
    induction es as [|e es IH] using rev_ind; intros Hes.
    - split; [constructor|]. apply (bool_decide_unpack _). by vm_compute.
    - apply Forall_app in Hes as [Hes He]. rewrite Forall_singleton in He.
      rewrite foldl_app. simpl. apply step_zones_known; [exact He|].
      by apply IH. }
  unfold App.handleCalculate.
  destruct (App.activities s) as [|a l] eqn:Hacts.
  - left. done.
  - right. split; [done|]. by apply handleCalculate_posts.
Qed.

End AppFacts.

Lemma ids_are_positions_without_delete_witness :
  NoDup (Front.id <$> App.activities
           (App.run (λ _, 20%float)
              [ App.LoadSustainability; App.OpenModal; App.SetName "Siesta";
                App.SetValue "4"; App.SetDuration "1"; App.SetOpenTime "15";
                App.SetCloseTime "17"; App.SetZone "Sur"; App.ClickAdd ])).
Proof.
  apply (ids_are_positions_without_delete (λ _, 20%float)).
  repeat constructor.
Defined.

Lemma handleCalculate_never_throws_witness :
  ∃ body,
    App.handleCalculate (λ _, 20%float)
      (App.run (λ _, 20%float)
         [ App.LoadExample; App.ClickDelete 2; App.OpenModal;
           App.SetName "Siesta"; App.SetValue "4"; App.SetDuration "1";
           App.SetOpenTime "15"; App.SetCloseTime "17"; App.SetZone "Sur";
           App.ClickAdd ])
    = Front.Posted body.
Proof.
  destruct (handleCalculate_never_throws (λ _, 20%float)
              [ App.LoadExample; App.ClickDelete 2; App.OpenModal;
                App.SetName "Siesta"; App.SetValue "4"; App.SetDuration "1";
                App.SetOpenTime "15"; App.SetCloseTime "17"; App.SetZone "Sur";
                App.ClickAdd ]) as [[Hempty _]|[_ Hposted]].
  - repeat constructor.
  - vm_compute in Hempty. discriminate Hempty.
  - exact Hposted.
Defined.
